(** * SMS transactions: search strategies, comparator and API store

    A shallow embedding of [dsa/search_algorithms.py] (class
    [SearchAlgorithms] and the demonstration) and of
    [api/sms_api_server.py] (class [SMSAPIHandler]: its store, its
    request methods, routing, authentication, and the way the server
    runs them, one handler per request), with the properties of the
    specification stated over them.

    Conventions of the embedding:
    - a Python [dict] record is a [transaction]: its ['id'] entry, typed as
      an integer as the source's signatures have it ([transaction_id: int]),
      and its remaining entries as a finite map;
    - record objects live in a [heap] and lists hold their addresses, so
      that the in-place assignment of identifiers and the identity of the
      record a strategy returns are visible;
    - [time.time()] reads a [clock], a stream of readings threaded through
      the monad [M] together with Python exceptions;
    - elapsed times and rates are binary64 floats, as in Python. *)

From Stdlib Require Import ZArith Lia Floats Uint63.
From stdpp Require Import gmap strings list sorting.

Local Open Scope Z_scope.

(** ** Python values, numbers and exceptions *)

Module Py.

(** The exceptions the modelled code can raise. *)
Inductive exn : Type :=
  | ZeroDivisionError
  | KeyError
  | IndexError
  | UnicodeDecodeError
  | OSError.

(** What running a piece of code gives: a value, a raised exception, or
    [Timeout] when the fuel given to a [while] loop ran out (no Python
    behaviour: the loops of this program are shown never to reach it). *)
Inductive outcome (A : Type) : Type :=
  | Ok (a : A)
  | Raise (e : exn)
  | Timeout.
Arguments Ok {A} a.
Arguments Raise {A} e.
Arguments Timeout {A}.

#[global] Instance outcome_ret : MRet outcome := @Ok.
#[global] Instance outcome_bind : MBind outcome := fun A B f x =>
  match x with
  | Ok a => f a
  | Raise e => Raise e
  | Timeout => Timeout
  end.

(** The wall clock: the readings successive calls of [time.time()] return. *)
Definition clock : Type := nat -> float.

(** Code that reads the clock and may raise. *)
Definition M (A : Type) : Type := clock -> outcome (A * clock).

#[global] Instance M_ret : MRet M := fun A a c => Ok (a, c).
#[global] Instance M_bind : MBind M := fun A B f x c =>
  match x c with
  | Ok (a, c') => f a c'
  | Raise e => Raise e
  | Timeout => Timeout
  end.

(** [time.time()] *)
Definition time_time : M float :=
  fun c => Ok (c 0%nat, fun n => c (S n)).

(** The fuel of a loop ran out. *)
Definition timeout {A : Type} : M A := fun _ => Timeout.

(** Python numbers: [int] and [float]. *)
Inductive number : Type :=
  | PyInt (z : Z)
  | PyFloat (f : float).

(** [float(z)], exact for [|z| < 2^53] (every length and count here). *)
Definition float_of_int (z : Z) : float :=
  if z <? 0 then PrimFloat.opp (PrimFloat.of_uint63 (Uint63.of_Z (- z)))
  else PrimFloat.of_uint63 (Uint63.of_Z z).

Definition to_float (a : number) : float :=
  match a with
  | PyInt z => float_of_int z
  | PyFloat f => f
  end.

(** [a + b] *)
Definition add (a b : number) : number :=
  match a, b with
  | PyInt x, PyInt y => PyInt (x + y)
  | _, _ => PyFloat (PrimFloat.add (to_float a) (to_float b))
  end.

(** [a * b] *)
Definition mul (a b : number) : number :=
  match a, b with
  | PyInt x, PyInt y => PyInt (x * y)
  | _, _ => PyFloat (PrimFloat.mul (to_float a) (to_float b))
  end.

Definition is_zero (a : number) : bool :=
  match a with
  | PyInt z => z =? 0
  | PyFloat f => PrimFloat.eqb f 0%float
  end.

(** [a / b], true division: [ZeroDivisionError] on a zero divisor. The
    quotient of two integers is the quotient of their floats, which is
    Python's correctly rounded result when both are below [2^53]. *)
Definition truediv (a b : number) : outcome number :=
  if is_zero b then Raise ZeroDivisionError
  else Ok (PyFloat (PrimFloat.div (to_float a) (to_float b))).

(** Run code that does not read the clock. *)
Definition lift {A : Type} (o : outcome A) : M A :=
  fun c => match o with
           | Ok a => Ok (a, c)
           | Raise e => Raise e
           | Timeout => Timeout
           end.

(** [for x in l: s = body x s] *)
Fixpoint for_each {A S : Type} (l : list A) (body : A -> S -> M S) (s : S) : M S :=
  match l with
  | [] => mret s
  | x :: l' => s' ← body x s; for_each l' body s'
  end.

(** [min(x, *rest)] and [max(x, *rest)] over a non-empty list of floats:
    the builtin keeps the first item and replaces it by a later one only
    when that one compares strictly smaller (greater). *)
Definition min (x : float) (rest : list float) : float :=
  foldl (fun m item => if PrimFloat.ltb item m then item else m) x rest.
Definition max (x : float) (rest : list float) : float :=
  foldl (fun m item => if PrimFloat.ltb m item then item else m) x rest.

(** [l[i]] for a list: negative indices count from the end, an index out
    of range raises [IndexError]. *)
Definition getitem {A : Type} (l : list A) (i : Z) : outcome A :=
  let j := if i <? 0 then Z.of_nat (length l) + i else i in
  if j <? 0 then Raise IndexError
  else match l !! Z.to_nat j with
       | Some a => Ok a
       | None => Raise IndexError
       end.

(** Stable insertion by key: [x] goes before the first element whose key
    is not smaller. *)
Fixpoint insert_by_key {A : Type} (x : Z * A) (l : list (Z * A)) : list (Z * A) :=
  match l with
  | [] => [x]
  | y :: l' => if x.1 <=? y.1 then x :: y :: l' else y :: insert_by_key x l'
  end.

(** [sorted] on items decorated with their integer keys. Python's sort is
    stable, and the result of a stable sort is determined by its input, so
    that any stable sort computes it; this one is insertion sort. *)
Fixpoint sort_by_key {A : Type} (l : list (Z * A)) : list (Z * A) :=
  match l with
  | [] => []
  | x :: l' => insert_by_key x (sort_by_key l')
  end.

(** [sorted(l, key=key)], for a key function that may raise: the keys of
    all items are computed first, front to back, then the items sorted. *)
Definition sorted {A : Type} (key : A -> outcome Z) (l : list A) : outcome (list A) :=
  keys ← mapM key l;
  Ok ((sort_by_key (zip keys l)).*2).

(** The values a record's fields hold (JSON scalars). *)
Inductive value : Type :=
  | VNone
  | VBool (b : bool)
  | VInt (z : Z)
  | VFloat (f : float)
  | VStr (s : string).

(** A record: a [dict] with string keys. [tx_id] is its ['id'] entry
    ([None] when the key is absent), [tx_fields] its entries under the
    other keys. *)
Record transaction : Type := {
  tx_id : option Z;
  tx_fields : gmap string value
}.

(** [t['id'] = k] *)
Definition set_id (t : transaction) (k : Z) : transaction :=
  {| tx_id := Some k; tx_fields := tx_fields t |}.

(** [t[key] = v] for a key other than ['id'] *)
Definition set_field (t : transaction) (key : string) (v : value) : transaction :=
  {| tx_id := tx_id t; tx_fields := <[key := v]> (tx_fields t) |}.

(** [t['id']]: [KeyError] when the key is absent. *)
Definition getitem_id (t : transaction) : outcome Z :=
  match tx_id t with
  | Some k => Ok k
  | None => Raise KeyError
  end.

(** [t.get('id') == k] for an integer [k]: [None == k] is false. *)
Definition get_id_eq (t : transaction) (k : Z) : bool :=
  match tx_id t with
  | Some k' => k' =? k
  | None => false
  end.

(** Truth value of a dict: false exactly when it is empty. *)
Definition truthy (t : transaction) : bool :=
  match tx_id t with
  | Some _ => true
  | None => negb (bool_decide (tx_fields t = ∅))
  end.

(** Record objects: an address names one mutable [dict]. *)
Definition loc : Type := nat.
Definition heap : Type := loc -> transaction.

Definition heap_set (h : heap) (l : loc) (t : transaction) : heap :=
  fun l' => if decide (l' = l) then t else h l'.

(** A list of records as freshly made objects: the record at position
    [i] lives at address [i] (an empty record elsewhere), and the list of
    the objects is [addresses data]. *)
Definition heap_of (data : list transaction) : heap :=
  fun l => default {| tx_id := None; tx_fields := ∅ |} (data !! l).
Definition addresses (data : list transaction) : list loc :=
  seq 0 (length data).

End Py.

(** ** dsa/search_algorithms.py *)

Module Dsa.
Import Py.

(** The three strategies, named as the keys of the report dictionaries. *)
Inductive algorithm : Type :=
  | LinearSearch
  | DictionaryLookup
  | BinarySearch.

(** The key of a strategy in the report dictionaries. *)
Definition name (a : algorithm) : string :=
  match a with
  | LinearSearch => "linear_search"
  | DictionaryLookup => "dictionary_lookup"
  | BinarySearch => "binary_search"
  end.

(** Insertion order of the keys of the ['algorithms'] dictionaries. *)
Definition all_algorithms : list algorithm :=
  [LinearSearch; DictionaryLookup; BinarySearch].

#[global] Instance algorithm_eq_dec : EqDecision algorithm.
Proof. solve_decision. Defined.

(** The attributes of a [SearchAlgorithms] object. The lists and the
    dictionary hold the addresses of the record objects. *)
Record SearchAlgorithms : Type := {
  transactions : list loc;
  transactions_dict : gmap Z loc;
  sorted_transactions : list loc
}.

(** The loop of [_prepare_data_structures]:
    [for i, transaction in enumerate(self.transactions):
       if 'id' not in transaction: transaction['id'] = i + 1] *)
Fixpoint assign_ids (i : nat) (txs : list loc) (h : heap) : heap :=
  match txs with
  | [] => h
  | t :: rest =>
      let h' := match tx_id (h t) with
                | None => heap_set h t (set_id (h t) (Z.of_nat i + 1))
                | Some _ => h
                end in
      assign_ids (S i) rest h'
  end.

(** [{t['id']: t for t in txs}], extending [d]: a later record replaces an
    earlier one under the same key. *)
Fixpoint dict_by_id (h : heap) (txs : list loc) (d : gmap Z loc) : outcome (gmap Z loc) :=
  match txs with
  | [] => Ok d
  | t :: rest => k ← getitem_id (h t); dict_by_id h rest (<[k := t]> d)
  end.

Definition _prepare_data_structures (self : SearchAlgorithms) (h : heap)
  : outcome (SearchAlgorithms * heap) :=
  let h := assign_ids 0 (transactions self) h in
  d ← dict_by_id h (transactions self) ∅;
  s ← sorted (fun x => getitem_id (h x)) (transactions self);
  Ok ({| transactions := transactions self;
         transactions_dict := d;
         sorted_transactions := s |}, h).

(** [SearchAlgorithms(transactions_data)]: the object keeps the caller's
    list, and the caller's record objects. *)
Definition __init__ (transactions_data : list loc) (h : heap)
  : outcome (SearchAlgorithms * heap) :=
  _prepare_data_structures
    {| transactions := transactions_data;
       transactions_dict := ∅;
       sorted_transactions := [] |} h.

Fixpoint linear_search_loop (h : heap) (transaction_id : Z) (start_time : float)
    (txs : list loc) : M (option loc * float) :=
  match txs with
  | [] =>
      end_time ← time_time;
      mret (None, PrimFloat.sub end_time start_time)
  | transaction :: rest =>
      if get_id_eq (h transaction) transaction_id then
        end_time ← time_time;
        mret (Some transaction, PrimFloat.sub end_time start_time)
      else linear_search_loop h transaction_id start_time rest
  end.

Definition linear_search (self : SearchAlgorithms) (h : heap) (transaction_id : Z)
  : M (option loc * float) :=
  start_time ← time_time;
  linear_search_loop h transaction_id start_time (transactions self).

Definition dictionary_lookup (self : SearchAlgorithms) (h : heap) (transaction_id : Z)
  : M (option loc * float) :=
  start_time ← time_time;
  let result := transactions_dict self !! transaction_id in
  end_time ← time_time;
  mret (result, PrimFloat.sub end_time start_time).

(** The [while left <= right] loop of [binary_search]; [fuel] bounds the
    number of iterations. *)
Fixpoint binary_search_loop (fuel : nat) (self : SearchAlgorithms) (h : heap)
    (transaction_id : Z) (start_time : float) (left right : Z)
  : M (option loc * float) :=
  if left <=? right then
    match fuel with
    | O => timeout
    | S fuel' =>
        let mid := (left + right) `div` 2 in
        t ← lift (getitem (sorted_transactions self) mid);
        mid_id ← lift (getitem_id (h t));
        if mid_id =? transaction_id then
          end_time ← time_time;
          mret (Some t, PrimFloat.sub end_time start_time)
        else if mid_id <? transaction_id then
          binary_search_loop fuel' self h transaction_id start_time (mid + 1) right
        else
          binary_search_loop fuel' self h transaction_id start_time left (mid - 1)
    end
  else
    end_time ← time_time;
    mret (None, PrimFloat.sub end_time start_time).

(** One iteration per element is more than the loop can use: every
    iteration removes at least one index from [left..right]. *)
Definition binary_search (self : SearchAlgorithms) (h : heap) (transaction_id : Z)
  : M (option loc * float) :=
  start_time ← time_time;
  let left := 0 in
  let right := Z.of_nat (length (sorted_transactions self)) - 1 in
  binary_search_loop (length (sorted_transactions self)) self h
    transaction_id start_time left right.

(** One entry of [results['algorithms']]. *)
Record algo_result : Type := {
  found : bool;
  execution_time : float;
  time_complexity : string;
  space_complexity : string;
  result : option loc
}.

(** A speed ratio of the report: [Faster q] is the text
    [f"{q:.2f}x faster"] (its rendering to two decimals is not modelled),
    [NotAvailable] the text ["N/A"]. *)
Inductive speed : Type :=
  | Faster (q : float)
  | NotAvailable.

(** [f"{num / den:.2f}x faster" if den > 0 else "N/A"] *)
Definition speed_ratio (num den : float) : M speed :=
  if PrimFloat.ltb 0%float den then
    q ← lift (truediv (PyFloat num) (PyFloat den));
    mret (Faster (to_float q))
  else mret NotAvailable.

Record speed_improvement_t : Type := {
  dictionary_vs_linear : speed;
  binary_vs_linear : speed;
  dictionary_vs_binary : speed
}.

Module Comparison.
Record performance : Type := {
  fastest_algorithm : algorithm;
  slowest_algorithm : algorithm;
  speed_improvement : speed_improvement_t;
  dataset_size : nat
}.
Record t : Type := {
  transaction_id : Z;
  algorithms : algorithm -> algo_result;
  performance_analysis : performance
}.
End Comparison.

Definition compare_algorithms (self : SearchAlgorithms) (h : heap) (transaction_id : Z)
  : M Comparison.t :=
  '(linear_result, linear_time) ← linear_search self h transaction_id;
  let linear := {| found := bool_decide (linear_result ≠ None);
                   execution_time := linear_time;
                   time_complexity := "O(n)";
                   space_complexity := "O(1)";
                   result := linear_result |} in
  '(dict_result, dict_time) ← dictionary_lookup self h transaction_id;
  let dict := {| found := bool_decide (dict_result ≠ None);
                 execution_time := dict_time;
                 time_complexity := "O(1)";
                 space_complexity := "O(n)";
                 result := dict_result |} in
  '(binary_result, binary_time) ← binary_search self h transaction_id;
  let binary := {| found := bool_decide (binary_result ≠ None);
                   execution_time := binary_time;
                   time_complexity := "O(log n)";
                   space_complexity := "O(1)";
                   result := binary_result |} in
  let fastest_time := min linear_time [dict_time; binary_time] in
  let slowest_time := max linear_time [dict_time; binary_time] in
  let fastest :=
    if PrimFloat.eqb dict_time fastest_time then DictionaryLookup
    else if PrimFloat.eqb binary_time fastest_time then BinarySearch
    else LinearSearch in
  let slowest :=
    if PrimFloat.eqb linear_time slowest_time then LinearSearch
    else if PrimFloat.eqb binary_time slowest_time then BinarySearch
    else DictionaryLookup in
  dl ← speed_ratio linear_time dict_time;
  bl ← speed_ratio linear_time binary_time;
  db ← speed_ratio binary_time dict_time;
  mret {| Comparison.transaction_id := transaction_id;
          Comparison.algorithms := fun a =>
            match a with
            | LinearSearch => linear
            | DictionaryLookup => dict
            | BinarySearch => binary
            end;
          Comparison.performance_analysis :=
            {| Comparison.fastest_algorithm := fastest;
               Comparison.slowest_algorithm := slowest;
               Comparison.speed_improvement :=
                 {| dictionary_vs_linear := dl;
                    binary_vs_linear := bl;
                    dictionary_vs_binary := db |};
               Comparison.dataset_size := length (transactions self) |} |}.

(** One entry of [benchmark_results['algorithms']]. [success_rate] first
    counts the hits, then holds the rate. *)
Record algo_stats : Type := {
  total_time : number;
  avg_time : number;
  success_rate : number
}.

Module Benchmark.
Record t : Type := {
  test_cases : nat;
  dataset_size : nat;
  algorithms : algorithm -> algo_stats;
  detailed_results : list Comparison.t
}.
End Benchmark.

(** [benchmark_results['algorithms'][a] = st] *)
Definition set_stats (b : Benchmark.t) (a : algorithm) (st : algo_stats) : Benchmark.t :=
  {| Benchmark.test_cases := Benchmark.test_cases b;
     Benchmark.dataset_size := Benchmark.dataset_size b;
     Benchmark.algorithms := fun a' =>
       if decide (a' = a) then st else Benchmark.algorithms b a';
     Benchmark.detailed_results := Benchmark.detailed_results b |}.

(** [benchmark_results['detailed_results'].append(comparison)] *)
Definition append_result (b : Benchmark.t) (comparison : Comparison.t) : Benchmark.t :=
  {| Benchmark.test_cases := Benchmark.test_cases b;
     Benchmark.dataset_size := Benchmark.dataset_size b;
     Benchmark.algorithms := Benchmark.algorithms b;
     Benchmark.detailed_results := Benchmark.detailed_results b ++ [comparison] |}.

(** The body of [for algo_name, algo_data in comparison['algorithms'].items()] *)
Definition aggregate (comparison : Comparison.t) (a : algorithm) (b : Benchmark.t)
  : Benchmark.t :=
  let algo_data := Comparison.algorithms comparison a in
  let st := Benchmark.algorithms b a in
  let st := {| total_time := add (total_time st) (PyFloat (execution_time algo_data));
               avg_time := avg_time st;
               success_rate := success_rate st |} in
  let st := if found algo_data
            then {| total_time := total_time st;
                    avg_time := avg_time st;
                    success_rate := add (success_rate st) (PyInt 1) |}
            else st in
  set_stats b a st.

(** The body of [for algo_name in benchmark_results['algorithms']] *)
Definition average (n : nat) (a : algorithm) (b : Benchmark.t) : M Benchmark.t :=
  let algo_stats := Benchmark.algorithms b a in
  avg ← lift (truediv (total_time algo_stats) (PyInt (Z.of_nat n)));
  let algo_stats := {| total_time := total_time algo_stats;
                       avg_time := avg;
                       success_rate := success_rate algo_stats |} in
  rate ← lift (truediv (success_rate algo_stats) (PyInt (Z.of_nat n)));
  let algo_stats := {| total_time := total_time algo_stats;
                       avg_time := avg_time algo_stats;
                       success_rate := mul rate (PyInt 100) |} in
  mret (set_stats b a algo_stats).

Definition benchmark_algorithms (self : SearchAlgorithms) (h : heap) (test_ids : list Z)
  : M Benchmark.t :=
  let benchmark_results :=
    {| Benchmark.test_cases := length test_ids;
       Benchmark.dataset_size := length (transactions self);
       Benchmark.algorithms := fun _ =>
         {| total_time := PyInt 0; avg_time := PyInt 0; success_rate := PyInt 0 |};
       Benchmark.detailed_results := [] |} in
  benchmark_results ←
    for_each test_ids (fun test_id b =>
      comparison ← compare_algorithms self h test_id;
      for_each all_algorithms (fun a b => mret (aggregate comparison a b))
        (append_result b comparison)) benchmark_results;
  for_each all_algorithms (average (length test_ids)) benchmark_results.

(** [create_sample_data()] *)
Definition create_sample_data : list transaction :=
  [ {| tx_id := Some 1;
       tx_fields := {[ "address" := VStr "M-Money";
                       "body" := VStr "You have received 2000 RWF from Jane Smith";
                       "date" := VStr "1715351458724";
                       "type" := VStr "1";
                       "service_center" := VStr "+250788110381" ]} |};
    {| tx_id := Some 2;
       tx_fields := {[ "address" := VStr "M-Money";
                       "body" := VStr "Your payment of 1,000 RWF has been completed";
                       "date" := VStr "1715351506754";
                       "type" := VStr "1";
                       "service_center" := VStr "+250788110381" ]} |};
    {| tx_id := Some 3;
       tx_fields := {[ "address" := VStr "Bank-Alert";
                       "body" := VStr "Account balance: 50,000 RWF";
                       "date" := VStr "1715369560245";
                       "type" := VStr "1";
                       "service_center" := VStr "+250788110381" ]} |} ].

End Dsa.

(** ** api/sms_api_server.py: the record store of [SMSAPIHandler]

    The handler's records are created by the handler (parsed from the file
    or from a request body) and are not changed once they are in the list
    and the dictionary, so both hold them by value here. Authentication and
    path parsing are taken by their results, and so is the reading of the
    request body; a handler answers with a status code, and an error
    answer reads the clock for its timestamp. Failures of the socket are
    not modelled. *)

Module Api.
Import Py.

Record SMSAPIHandler : Type := {
  transactions : list transaction;
  transactions_dict : gmap Z transaction
}.

(** The loop of [load_transactions]:
    [for i, transaction in enumerate(self.transactions):
       transaction['id'] = i + 1
       self.transactions_dict[transaction['id']] = transaction] *)
Fixpoint load_loop (i : nat) (txs : list transaction) (d : gmap Z transaction)
  : list transaction * gmap Z transaction :=
  match txs with
  | [] => ([], d)
  | transaction :: rest =>
      let transaction := set_id transaction (Z.of_nat i + 1) in
      let '(txs', d') := load_loop (S i) rest (<[Z.of_nat i + 1 := transaction]> d) in
      (transaction :: txs', d')
  end.

(** [__init__] followed by [load_transactions]: [file] is the JSON list
    of records [sms_transactions.json] holds, [None] when the file is
    missing. (On any other content the constructor raises; such files
    are not modelled.) *)
Definition load_transactions (file : option (list transaction)) : SMSAPIHandler :=
  match file with
  | Some data =>
      let '(txs, d) := load_loop 0 data ∅ in
      {| transactions := txs; transactions_dict := d |}
  | None => {| transactions := []; transactions_dict := ∅ |}
  end.

(** [dictionary_lookup]: the two clock readings are those of its timing
    printout. *)
Definition dictionary_lookup (self : SMSAPIHandler) (transaction_id : Z)
  : M (option transaction) :=
  start_time ← time_time;
  let result := transactions_dict self !! transaction_id in
  end_time ← time_time;
  mret result.

(** What [parse_path] returns: [('transactions', None)],
    [('transaction', id)] or [('invalid', None)]. *)
Inductive endpoint : Type :=
  | Transactions
  | Transaction (transaction_id : Z)
  | Invalid.

(** What the [try] block of [do_POST] and of [do_PUT] gets from
    [json.loads(self.rfile.read(int(self.headers['Content-Length'])).decode('utf-8'))]. *)
Inductive payload : Type :=
  | JsonObject (data : transaction)
      (* a JSON object *)
  | JsonValue (missing_field : bool)
      (* another JSON value. [missing_field]: the validation loop of
         [do_POST] finds [field not in value] true for a required field
         (a list or a string without it); otherwise the test, or the
         assignment [value['id'] = ...] after it, raises [TypeError] *)
  | JSONDecodeError
      (* [json.loads] raises [json.JSONDecodeError] *)
  | OtherException.
      (* any other exception: no [Content-Length] header or none that
         [int] reads, a body that is not UTF-8 *)

Record request : Type := {
  authenticated : bool;            (* self.authenticate() *)
  path : endpoint;                 (* self.parse_path() *)
  body : payload                   (* read by do_POST and do_PUT only *)
}.

Definition required_fields : list string := ["address"; "body"; "date"].

(** The handlers return the status code of the response and the handler's
    state afterwards. [send_auth_error] answers 401;
    [send_error_response] stamps its answer with [time.time()]. *)
Definition send_auth_error (self : SMSAPIHandler) : M (Z * SMSAPIHandler) :=
  mret (401, self).

Definition send_error_response (self : SMSAPIHandler) (status_code : Z)
  : M (Z * SMSAPIHandler) :=
  timestamp ← time_time;
  mret (status_code, self).

Definition do_POST (self : SMSAPIHandler) (req : request) : M (Z * SMSAPIHandler) :=
  if negb (authenticated req) then send_auth_error self
  else match path req with
  | Transactions =>
      match body req with
      | JsonObject new_transaction =>
          if forallb (fun field => bool_decide (is_Some (tx_fields new_transaction !! field)))
               required_fields
          then
            let new_transaction :=
              set_id new_transaction (Z.of_nat (length (transactions self)) + 1) in
            created_at ← time_time;
            let new_transaction :=
              set_field new_transaction "created_at" (VFloat created_at) in
            k ← lift (getitem_id new_transaction);
            mret (201, {| transactions := transactions self ++ [new_transaction];
                          transactions_dict :=
                            <[k := new_transaction]> (transactions_dict self) |})
          else send_error_response self 400
      | JsonValue missing_field =>
          if missing_field then send_error_response self 400
          else send_error_response self 500          (* except Exception *)
      | JSONDecodeError => send_error_response self 400
      | OtherException => send_error_response self 500
      end
  | _ => send_error_response self 400
  end.

(** [for i, transaction in enumerate(self.transactions):
       if transaction.get('id') == transaction_id:
         self.transactions[i] = updated_data; break] *)
Fixpoint replace_first (transaction_id : Z) (updated_data : transaction)
    (txs : list transaction) : list transaction :=
  match txs with
  | [] => []
  | transaction :: rest =>
      if get_id_eq transaction transaction_id then updated_data :: rest
      else transaction :: replace_first transaction_id updated_data rest
  end.

(** [not x] for [x] a record or [None] *)
Definition falsy (x : option transaction) : bool :=
  match x with
  | Some t => negb (truthy t)
  | None => true
  end.

Definition do_PUT (self : SMSAPIHandler) (req : request) : M (Z * SMSAPIHandler) :=
  if negb (authenticated req) then send_auth_error self
  else match path req with
  | Transaction transaction_id =>
      if transaction_id =? 0 then send_error_response self 400
      else
        existing_transaction ← dictionary_lookup self transaction_id;
        if falsy existing_transaction then send_error_response self 404
        else match body req with
        | JsonObject updated_data =>
            let updated_data := set_id updated_data transaction_id in
            updated_at ← time_time;
            let updated_data := set_field updated_data "updated_at" (VFloat updated_at) in
            mret (200, {| transactions :=
                            replace_first transaction_id updated_data (transactions self);
                          transactions_dict :=
                            <[transaction_id := updated_data]> (transactions_dict self) |})
        | JsonValue _ => send_error_response self 500   (* value['id'] = ...: TypeError *)
        | JSONDecodeError => send_error_response self 400
        | OtherException => send_error_response self 500
        end
  | _ => send_error_response self 400
  end.

Definition do_DELETE (self : SMSAPIHandler) (req : request) : M (Z * SMSAPIHandler) :=
  if negb (authenticated req) then send_auth_error self
  else match path req with
  | Transaction transaction_id =>
      if transaction_id =? 0 then send_error_response self 400
      else
        existing_transaction ← dictionary_lookup self transaction_id;
        if falsy existing_transaction then send_error_response self 404
        else
          mret (200, {| transactions :=
                          List.filter (fun t => negb (get_id_eq t transaction_id))
                            (transactions self);
                        transactions_dict := delete transaction_id (transactions_dict self) |})
  | _ => send_error_response self 400
  end.

(** The identifiers of the records of the store, in order. *)
Definition ids (self : SMSAPIHandler) : list (option Z) :=
  tx_id <$> transactions self.

End Api.

(** ** api/sms_api_server.py: routing, authentication and the read path *)

Module Handler.
Import Py.
Import Stdlib.Strings.Ascii.

(** [s.split(sep)] for a one-character separator: the pieces between the
    separators, at least one. *)
Fixpoint split (sep : ascii) (s : string) : list string :=
  match s with
  | String.EmptyString => [String.EmptyString]
  | String.String a s' =>
      if Ascii.eqb a sep then String.EmptyString :: split sep s'
      else match split sep s' with
           | [] => [String.String a String.EmptyString]
           | piece :: pieces => String.String a piece :: pieces
           end
  end.

(** [s.split(sep, 1)]: at most one split, at the first separator. *)
Fixpoint split1 (sep : ascii) (s : string) : list string :=
  match s with
  | String.EmptyString => [String.EmptyString]
  | String.String a s' =>
      if Ascii.eqb a sep then [String.EmptyString; s']
      else match split1 sep s' with
           | [] => [String.String a String.EmptyString]
           | piece :: pieces => String.String a piece :: pieces
           end
  end.

(** [s.lstrip(ch)], [s.rstrip(ch)] and [s.strip(ch)] for one character. *)
Fixpoint lstrip (ch : ascii) (s : string) : string :=
  match s with
  | String.EmptyString => String.EmptyString
  | String.String a s' => if Ascii.eqb a ch then lstrip ch s' else s
  end.

Fixpoint rstrip (ch : ascii) (s : string) : string :=
  match s with
  | String.EmptyString => String.EmptyString
  | String.String a s' =>
      match rstrip ch s' with
      | String.EmptyString => if Ascii.eqb a ch then String.EmptyString else String.String a String.EmptyString
      | r => String.String a r
      end
  end.

Definition strip (ch : ascii) (s : string) : string := rstrip ch (lstrip ch s).

(** [s.startswith(p)] *)
Fixpoint startswith (p s : string) : bool :=
  match p, s with
  | String.EmptyString, _ => true
  | String.String a p', String.String b s' => Ascii.eqb a b && startswith p' s'
  | String.String _ _, String.EmptyString => false
  end.

(** [s[n:]] *)
Fixpoint drop (n : nat) (s : string) : string :=
  match n, s with
  | O, _ => s
  | S n', String _ s' => drop n' s'
  | S _, String.EmptyString => String.EmptyString
  end.

Section ParsePath.

(** [int(s)] on a path segment: [None] stands for [ValueError]. *)
Variable int : string → option Z.

(** [parse_path]: [path] is [self.path], a string of one-byte characters. *)
Definition parse_path (path : string) : outcome Api.endpoint :=
  path ← getitem (split "?" path) 0;
  let parts := split "/" (strip "/" path) in
  match parts with
  | [p0] =>
      if String.eqb p0 "transactions" then Ok Api.Transactions else Ok Api.Invalid
  | [p0; p1] =>
      if String.eqb p0 "transactions" then
        match int p1 with
        | Some transaction_id => Ok (Api.Transaction transaction_id)
        | None => Ok Api.Invalid
        end
      else Ok Api.Invalid
  | _ => Ok Api.Invalid
  end.

End ParsePath.

Definition VALID_CREDENTIALS : gmap string string :=
  {[ "admin" := "password123"; "user" := "userpass456" ]}.

Section Authenticate.

(** [base64.b64decode(e).decode('utf-8')], the decoded text as its UTF-8
    bytes: [None] stands for any exception of the two calls. *)
Variable b64decode_utf8 : string → option string.

(** [authenticate]: [auth_header] is [self.headers.get('Authorization')]. *)
Definition authenticate (auth_header : option string) : bool :=
  match auth_header with
  | None => false
  | Some auth_header =>
      if String.eqb auth_header "" || negb (startswith "Basic " auth_header) then false
      else
        let encoded_credentials := drop 6 auth_header in
        match b64decode_utf8 encoded_credentials with
        | None => false
        | Some decoded_credentials =>
            match split1 ":" decoded_credentials with
            | [username; password] =>
                bool_decide (VALID_CREDENTIALS !! username = Some password)
            | _ => false
            end
        end
  end.

End Authenticate.

(** [SMSAPIHandler.linear_search]: the clock readings are those of its
    timing printout. *)
Fixpoint linear_search_loop (transaction_id : Z) (txs : list transaction)
  : M (option transaction) :=
  match txs with
  | [] => end_time ← time_time; mret None
  | transaction :: rest =>
      if get_id_eq transaction transaction_id then
        end_time ← time_time; mret (Some transaction)
      else linear_search_loop transaction_id rest
  end.

Definition linear_search (self : Api.SMSAPIHandler) (transaction_id : Z)
  : M (option transaction) :=
  start_time ← time_time;
  linear_search_loop transaction_id (Api.transactions self).

(** What [do_GET] sends. *)
Inductive get_response : Type :=
  | AuthError                                   (* 401, send_auth_error *)
  | AllTransactions (count : nat) (transactions : list transaction)   (* 200 *)
  | OneTransaction (transaction : transaction)
      (linear_search_result dictionary_lookup_result : bool)          (* 200 *)
  | ErrorResponse (status_code : Z) (timestamp : float).

(** [send_error_response]: it stamps the response with [time.time()]. *)
Definition send_error_response (status_code : Z) : M get_response :=
  timestamp ← time_time;
  mret (ErrorResponse status_code timestamp).

Definition do_GET (self : Api.SMSAPIHandler) (req : Api.request) : M get_response :=
  if negb (Api.authenticated req) then mret AuthError
  else match Api.path req with
  | Api.Transactions =>
      mret (AllTransactions (length (Api.transactions self))
              (take 100 (Api.transactions self)))
  | Api.Transaction transaction_id =>
      if transaction_id =? 0 then send_error_response 400
      else
        linear_result ← linear_search self transaction_id;
        dict_result ← Api.dictionary_lookup self transaction_id;
        match dict_result with
        | Some transaction =>
            if truthy transaction then
              mret (OneTransaction transaction
                      (bool_decide (linear_result ≠ None))
                      (bool_decide (dict_result ≠ None)))
            else send_error_response 404
        | None => send_error_response 404
        end
  | Api.Invalid => send_error_response 400
  end.

End Handler.

(** ** api/sms_api_server.py: serving requests

    [run_server] hands the class [SMSAPIHandler] to [HTTPServer], which
    constructs one handler for each request it accepts (the handler
    speaks HTTP/1.0: a connection carries one request).
    [SMSAPIHandler.__init__] builds the store from the file and the base
    constructor then calls the [do_] method of the request; the handler
    is dropped afterwards, and nothing in the program writes the file. *)

Module Server.
Import Py.

(** The request methods the handler has a [do_] method for. *)
Inductive command : Type := OPTIONS | GET | POST | PUT | DELETE.

(** What the client is sent: a status code, or the response of [do_GET]. *)
Inductive reply : Type :=
  | Status (status_code : Z)
  | Response (response : Handler.get_response).

(** [do_OPTIONS]: 200 and the CORS headers, without authentication. *)
Definition do_OPTIONS (self : Api.SMSAPIHandler) : M (Z * Api.SMSAPIHandler) :=
  mret (200, self).

(** One request. [file] is the content of [sms_transactions.json] when
    the handler is constructed, as [Api.load_transactions] takes it; the
    state the handler is in when its method returns is given with the
    reply. *)
Definition handle (file : option (list transaction)) (method : command)
    (req : Api.request) : M (reply * Api.SMSAPIHandler) :=
  let self := Api.load_transactions file in
  match method with
  | OPTIONS => '(status_code, self) ← do_OPTIONS self; mret (Status status_code, self)
  | GET => response ← Handler.do_GET self req; mret (Response response, self)
  | POST => '(status_code, self) ← Api.do_POST self req; mret (Status status_code, self)
  | PUT => '(status_code, self) ← Api.do_PUT self req; mret (Status status_code, self)
  | DELETE => '(status_code, self) ← Api.do_DELETE self req; mret (Status status_code, self)
  end.

(** [httpd.serve_forever()] on the requests that arrive, each with the
    content of the file at its arrival. *)
Fixpoint serve_forever
    (arrivals : list (option (list transaction) * command * Api.request))
  : M (list (reply * Api.SMSAPIHandler)) :=
  match arrivals with
  | [] => mret []
  | (file, method, req) :: rest =>
      served ← handle file method req;
      others ← serve_forever rest;
      mret (served :: others)
  end.

End Server.

(** ** dsa/search_algorithms.py: the demonstration *)

Module Demo.
Import Py Dsa.

(** What [open(filename)] and [json.load(f)] give. *)
Inductive file_read : Type :=
  | Loaded (data : list transaction)   (* a JSON list of records *)
  | FileNotFoundError
  | JSONDecodeError
  | OtherError (e : exn).              (* any other exception of the two calls *)

(** [load_transactions_from_file]: the two exceptions it catches give
    the empty list; any other one escapes. *)
Definition load_transactions_from_file (file : file_read)
  : outcome (list transaction) :=
  match file with
  | Loaded data => Ok data
  | FileNotFoundError => Ok []
  | JSONDecodeError => Ok []
  | OtherError e => Raise e
  end.

(** [main], without its printing: the records read (or the sample data)
    become fresh objects; it returns the comparison and the benchmark it
    prints. *)
Definition main (file : file_read) : M (Comparison.t * Benchmark.t) :=
  transactions ← lift (load_transactions_from_file file);
  let transactions :=
    match transactions with
    | [] => create_sample_data
    | _ => transactions
    end in
  '(searcher, h) ← lift (__init__ (addresses transactions) (heap_of transactions));
  let test_id := 1 in
  comparison ← compare_algorithms searcher h test_id;
  let test_ids :=
    if 100 <=? Z.of_nat (length transactions) then [1; 2; 3; 10; 50; 100]
    else [1; 2; 3] in
  benchmark ← benchmark_algorithms searcher h test_ids;
  mret (comparison, benchmark).

End Demo.

(** * Vocabulary of the properties *)

Import Py Dsa.

(** ** Sorting, identifiers and built states *)

(** Order of decorated items: by key. *)
Definition key_le {A : Type} (x y : Z * A) : Prop := x.1 ≤ y.1.

(** Items paired with their keys, as [sorted] decorates them. *)
Definition decorated {A : Type} (kf : A → Z) (p : list (Z * A)) : Prop :=
  Forall (λ y, y.1 = kf y.2) p.

(** The identifier of a record that has one. *)
Definition id_of (h : heap) (l : loc) : Z := default 0 (tx_id (h l)).

(** Every record of the list carries an identifier. *)
Definition all_have_ids (h : heap) (txs : list loc) : Prop :=
  ∀ l, l ∈ txs → is_Some (tx_id (h l)).

(** Records with equal identifiers are one and the same object. *)
Definition unique_ids (h : heap) (txs : list loc) : Prop :=
  Forall (λ l1, Forall (λ l2, tx_id (h l1) = tx_id (h l2) → l1 = l2) txs) txs.

#[global] Instance unique_ids_dec h txs : Decision (unique_ids h txs).
Proof. unfold unique_ids. apply _. Defined.

(** [a] comes no later than [b] in identifier order. *)
Definition id_le (h : heap) (a b : loc) : Prop :=
  ∃ ka kb, tx_id (h a) = Some ka ∧ tx_id (h b) = Some kb ∧ ka ≤ kb.

(** [self] holds the structures index construction derives from its list
    of records, for the record objects in [h]. *)
Record built (h : heap) (self : SearchAlgorithms) : Prop := {
  built_ids : all_have_ids h (transactions self);
  built_dict : ∀ k, transactions_dict self !! k
                    = last (filter (λ l, tx_id (h l) = Some k) (transactions self));
  built_perm : sorted_transactions self ≡ₚ transactions self;
  built_sorted : StronglySorted (id_le h) (sorted_transactions self);
  built_stable : ∀ k, filter (λ l, tx_id (h l) = Some k) (sorted_transactions self)
                      = filter (λ l, tx_id (h l) = Some k) (transactions self)
}.

(** What a search of the sorted sequence [s] for [tid] may answer. *)
Definition search_answer (h : heap) (s : list loc) (tid : Z) (r : option loc) : Prop :=
  match r with
  | Some l => l ∈ s ∧ tx_id (h l) = Some tid
  | None => ∀ l, l ∈ s → tx_id (h l) ≠ Some tid
  end.

(** ** Reports *)

(** [x] is a number: an elapsed time, the difference of two finite clock
    readings, always is. *)
Definition not_nan (x : float) : Prop := PrimFloat.is_nan x = false.

(** A float that is neither NaN nor infinite, on its specification. *)
Definition SFfinite (a : spec_float) : Prop :=
  match a with
  | S754_zero _ | S754_finite _ _ _ => True
  | _ => False
  end.

(** Every reading of the clock is a finite number, as those of
    [time.time()] are. *)
Definition finite_clock (c : clock) : Prop :=
  ∀ n, PrimFloat.is_finite (c n) = true.

(** The ratio a report shows for the elapsed times [num] and [den]. *)
Definition ratio (num den : float) : speed :=
  if PrimFloat.ltb 0 den then Faster (PrimFloat.div num den) else NotAvailable.

(** The entry of a strategy in a report. *)
Definition entry (r : option loc) (elapsed : float) (time space : string) : algo_result :=
  {| found := bool_decide (r ≠ None);
     execution_time := elapsed;
     time_complexity := time;
     space_complexity := space;
     result := r |}.

(** The report for the answers [rl], [rd], [rb] and the elapsed times
    [el], [ed], [eb] of the unordered scan, the keyed lookup and the
    bisection. *)
Definition report (self : SearchAlgorithms) (tid : Z)
    (rl rd rb : option loc) (el ed eb : float) : Comparison.t :=
  {| Comparison.transaction_id := tid;
     Comparison.algorithms := λ a,
       match a with
       | LinearSearch => entry rl el "O(n)" "O(1)"
       | DictionaryLookup => entry rd ed "O(1)" "O(n)"
       | BinarySearch => entry rb eb "O(log n)" "O(1)"
       end;
     Comparison.performance_analysis :=
       {| Comparison.fastest_algorithm :=
            if PrimFloat.eqb ed (min el [ed; eb]) then DictionaryLookup
            else if PrimFloat.eqb eb (min el [ed; eb]) then BinarySearch
            else LinearSearch;
          Comparison.slowest_algorithm :=
            if PrimFloat.eqb el (max el [ed; eb]) then LinearSearch
            else if PrimFloat.eqb eb (max el [ed; eb]) then BinarySearch
            else DictionaryLookup;
          Comparison.speed_improvement :=
            {| dictionary_vs_linear := ratio el ed;
               binary_vs_linear := ratio el eb;
               dictionary_vs_binary := ratio eb ed |};
          Comparison.dataset_size := length (transactions self) |} |}.

(** ** Sample states and claims as worded *)

(** A clock that advances by one second at every reading. *)
Definition ticking : clock := λ n, float_of_int (Z.of_nat n).

(** The sample data, and the state built from it. *)
Definition sample_heap : heap := heap_of create_sample_data.
Definition sample_locs : list loc := addresses create_sample_data.
Definition sample_self : SearchAlgorithms :=
  {| transactions := sample_locs;
     transactions_dict := {[ 1 := 0%nat; 2 := 1%nat; 3 := 2%nat ]};
     sorted_transactions := sample_locs |}.

(** The identifiers of the records a report's three strategies found, in
    the order scan, keyed lookup, bisection. *)
Definition found_ids (h : heap) (r : Comparison.t) : list (option Z) :=
  (λ a, l ← result (Comparison.algorithms r a); tx_id (h l)) <$> all_algorithms.

(** The claim C8 as the specification words it: index construction
    leaves every record as it was. *)
Definition records_unchanged (txs : list loc) (h : heap) : Prop :=
  ∀ self h', __init__ txs h = Ok (self, h') → ∀ l, h' l = h l.

(** A store of one record that has no identifier. *)
Definition blank : transaction := {| tx_id := None; tx_fields := ∅ |}.
Definition blank_heap : heap := heap_of [blank].

(** A record read from the file with identifier 7 in it. *)
Definition carried : transaction := {| tx_id := Some 7; tx_fields := ∅ |}.

(** A message as the API accepts it for creation. *)
Definition sms : transaction :=
  {| tx_id := None;
     tx_fields := {[ "address" := VStr "M-Money";
                     "body" := VStr "You have received 2000 RWF";
                     "date" := VStr "1715351458724" ]} |}.

(** Authenticated requests; a DELETE and a GET carry no body (an empty
    one is no JSON), and neither method reads it. *)
Definition delete_request (k : Z) : Api.request :=
  {| Api.authenticated := true; Api.path := Api.Transaction k;
     Api.body := Api.JSONDecodeError |}.
Definition create_request (t : transaction) : Api.request :=
  {| Api.authenticated := true; Api.path := Api.Transactions;
     Api.body := Api.JsonObject t |}.

(** The number of reports in which strategy [a] found a record. *)
Definition hits (a : algorithm) (reports : list Comparison.t) : nat :=
  length (filter (λ r, found (Comparison.algorithms r a) = true) reports).

(** The statistics after the aggregation loop over the entries of one
    report. *)
Definition aggregated (comparison : Comparison.t) (b : Benchmark.t) : Benchmark.t :=
  aggregate comparison BinarySearch
    (aggregate comparison DictionaryLookup
       (aggregate comparison LinearSearch b)).

(** The success rate as the claim C3 words it: the number of reports in
    which the strategy found a record, divided by the batch size. *)
Definition spec_success_rate (a : algorithm) (reports : list Comparison.t) (n : nat)
  : number :=
  PyFloat (PrimFloat.div (float_of_int (Z.of_nat (hits a reports)))
             (float_of_int (Z.of_nat n))).

(** The elapsed time a report records for a strategy. *)
Definition elapsed (r : Comparison.t) (a : algorithm) : float :=
  execution_time (Comparison.algorithms r a).

(** No strategy of the report was faster (slower) than [a]. *)
Definition minimal (r : Comparison.t) (a : algorithm) : Prop :=
  ∀ b, PrimFloat.leb (elapsed r a) (elapsed r b) = true.
Definition maximal (r : Comparison.t) (a : algorithm) : Prop :=
  ∀ b, PrimFloat.leb (elapsed r b) (elapsed r a) = true.

(** A clock that stands still: every elapsed time is zero. *)
Definition frozen_clock : clock := λ _, 0%float.

(** The report of the sample state for identifier 2 under the frozen
    clock: every strategy finds the record at address 1 in no time. *)
Definition tie_report : Comparison.t :=
  report sample_self 2 (Some 1%nat) (Some 1%nat) (Some 1%nat) 0 0 0.

(** The speed ratio as the claim C5 words it, for a pair of strategies
    with elapsed times [x] and [y]: the slower time over the faster one,
    unavailable when that denominator is zero. *)
Definition spec_ratio (x y : float) : speed :=
  let '(slower, faster) := if PrimFloat.ltb x y then (y, x) else (x, y) in
  if PrimFloat.eqb faster 0 then NotAvailable
  else Faster (PrimFloat.div slower faster).

(** A clock under which the scan takes one second, the keyed lookup two
    and the bisection one. *)
Definition scan_first_clock : clock :=
  λ n, match n with
       | 0%nat => 0 | 1%nat => 1
       | 2%nat => 1 | 3%nat => 3
       | 4%nat => 3 | _ => 4
       end%float.

(** [sp] is what a report shows for the quotient of [num] by [den]: the
    quotient when [den] is positive, unavailable otherwise, in particular
    when [den] is zero. *)
Definition shows_quotient (num den : float) (sp : speed) : Prop :=
  (PrimFloat.ltb 0 den = true → sp = Faster (PrimFloat.div num den))
  ∧ (PrimFloat.ltb 0 den = false → sp = NotAvailable)
  ∧ (PrimFloat.eqb den 0 = true → sp = NotAvailable).

(** ** Further vocabulary: the search engine *)

(** Two records that share identifier 1. *)
Definition twins : list transaction :=
  [ {| tx_id := Some 1; tx_fields := {[ "body" := VStr "a" ]} |};
    {| tx_id := Some 1; tx_fields := {[ "body" := VStr "b" ]} |} ].

(** The state index construction builds from them. *)
Definition twins_self : SearchAlgorithms :=
  {| transactions := addresses twins;
     transactions_dict := {[ 1 := 1%nat ]};
     sorted_transactions := addresses twins |}.

(** The answer of a search, without its elapsed time and the clock. *)
Definition answer_of (o : outcome (option loc * float * clock)) : outcome (option loc) :=
  match o with
  | Ok (r, _, _) => Ok r
  | Raise e => Raise e
  | Timeout => Timeout
  end.

(** The iterations a bisection of [n] records may take: the number of
    binary digits of [n], and one for [n = 0]. *)
Definition log_fuel (n : nat) : nat := S (Z.to_nat (Z.log2 (Z.of_nat n))).

(** The elapsed times of strategy [a] in the reports, summed as Python
    sums them: from the integer 0, left to right, in binary64. *)
Definition total_elapsed (a : algorithm) (reports : list Comparison.t) : number :=
  foldl (λ acc r, add acc (PyFloat (elapsed r a))) (PyInt 0) reports.

(** The clock after [i] comparisons: each reads it six times. *)
Definition after_comparisons (i : nat) (c : clock) : clock :=
  Nat.iter i (λ c' n, c' (6 + n)%nat) c.

(** A record that carries identifier 2 followed by one that has none. *)
Definition second_unnumbered : list transaction :=
  [ {| tx_id := Some 2; tx_fields := ∅ |}; {| tx_id := None; tx_fields := ∅ |} ].

(** The sample state with a dictionary that has fallen behind the list:
    no state index construction builds, but one an object is in when its
    dictionary attribute has been emptied. *)
Definition stale_self : SearchAlgorithms :=
  {| transactions := sample_locs;
     transactions_dict := ∅;
     sorted_transactions := sample_locs |}.

(** ** Further vocabulary: the API store *)

(** The dictionary is in step with the list: it holds a record under an
    identifier exactly when the list holds that record and the record
    carries that identifier. *)
Definition in_sync (s : Api.SMSAPIHandler) : Prop :=
  ∀ k t, Api.transactions_dict s !! k = Some t
         ↔ t ∈ Api.transactions s ∧ tx_id t = Some k.

(** Identifiers are positions: the record at (0-based) position [j]
    carries identifier [j + 1]. *)
Definition dense (s : Api.SMSAPIHandler) : Prop :=
  ∀ j t, Api.transactions s !! j = Some t → tx_id t = Some (Z.of_nat j + 1).

(** [s'] comes from [s] by creations and updates: any number of calls of
    [do_POST] and [do_PUT], each with any request and under any clock. *)
Inductive grown_from (s : Api.SMSAPIHandler) : Api.SMSAPIHandler → Prop :=
  | grown_refl : grown_from s s
  | grown_post s1 s2 req c code c' :
      grown_from s s1 →
      Api.do_POST s1 req c = Ok ((code, s2), c') →
      grown_from s s2
  | grown_put s1 s2 req c code c' :
      grown_from s s1 →
      Api.do_PUT s1 req c = Ok ((code, s2), c') →
      grown_from s s2.

Definition update_request (k : Z) (t : transaction) : Api.request :=
  {| Api.authenticated := true; Api.path := Api.Transaction k;
     Api.body := Api.JsonObject t |}.
Definition get_request (k : Z) : Api.request :=
  {| Api.authenticated := true; Api.path := Api.Transaction k;
     Api.body := Api.JSONDecodeError |}.

(** The record an accepted POST of [t] stores in [s] when the clock
    reads [now], and the one an accepted PUT of [t] stores under [k]. *)
Definition created (s : Api.SMSAPIHandler) (t : transaction) (now : float) : transaction :=
  set_field (set_id t (Z.of_nat (length (Api.transactions s)) + 1))
    "created_at" (VFloat now).
Definition updated (k : Z) (t : transaction) (now : float) : transaction :=
  set_field (set_id t k) "updated_at" (VFloat now).

(** The three fields a creation requires are in [t]. *)
Definition has_required_fields (t : transaction) : Prop :=
  ∀ field, field ∈ Api.required_fields → is_Some (tx_fields t !! field).

(** The store loaded from a file holding one message. *)
Definition one_sms : Api.SMSAPIHandler := Api.load_transactions (Some [sms]).

(** ** Further vocabulary: request lines and headers *)

Section StringVocabulary.
Import Stdlib.Strings.Ascii.

(** The character [ch] occurs in [s]. *)
Fixpoint contains (ch : ascii) (s : string) : bool :=
  match s with
  | String.EmptyString => false
  | String.String a s' => Ascii.eqb a ch || contains ch s'
  end.

(** The part of [s] before the first [ch], all of [s] when there is none. *)
Fixpoint before (ch : ascii) (s : string) : string :=
  match s with
  | String.EmptyString => String.EmptyString
  | String.String a s' =>
      if Ascii.eqb a ch then String.EmptyString else String.String a (before ch s')
  end.

(** The resource a request path names: what precedes the query string,
    without the slashes around it. *)
Definition resource (path : string) : string :=
  Handler.strip "/" (before "?" path).

End StringVocabulary.

(** * Properties *)

(** ** The stable sort *)

Section Sorting.
Context {A : Type}.
Implicit Types (x y : Z * A) (l : list (Z * A)).

Lemma insert_by_key_perm x l : insert_by_key x l ≡ₚ x :: l.
Proof.
  induction l as [|y l IH]; simpl; [done|].
  destruct (x.1 <=? y.1); [done|].
  rewrite IH. apply Permutation_swap.
Qed.

Lemma sort_by_key_perm l : sort_by_key l ≡ₚ l.
Proof.
  induction l as [|x l IH]; simpl; [done|].
  by rewrite insert_by_key_perm, IH.
Qed.

Lemma insert_by_key_sorted x l :
  StronglySorted key_le l → StronglySorted key_le (insert_by_key x l).
Proof.
  induction 1 as [|y l Hs IH Hy]; simpl.
  - repeat constructor.
  - destruct (Z.leb_spec x.1 y.1) as [Hle|Hlt].
    + constructor; [by constructor|].
      constructor; [done|].
      eapply Forall_impl; [exact Hy|]. unfold key_le. intros z ?. lia.
    + constructor; [done|].
      rewrite insert_by_key_perm. constructor; [|done].
      unfold key_le. lia.
Qed.

Lemma sort_by_key_sorted l : StronglySorted key_le (sort_by_key l).
Proof.
  induction l as [|x l IH]; simpl; [constructor|].
  by apply insert_by_key_sorted.
Qed.

(** Insertion keeps the items of every key in their order: the new item
    goes in front of those of its own key, behind those of smaller keys. *)
Lemma insert_by_key_filter k x l :
  filter (λ y, y.1 = k) (insert_by_key x l) = filter (λ y, y.1 = k) (x :: l).
Proof.
  induction l as [|y l IH]; simpl; [done|].
  destruct (Z.leb_spec x.1 y.1) as [Hle|Hlt]; [done|].
  rewrite filter_cons, IH, !filter_cons.
  repeat case_decide; try done; lia.
Qed.

Lemma sort_by_key_stable k l :
  filter (λ y, y.1 = k) (sort_by_key l) = filter (λ y, y.1 = k) l.
Proof.
  induction l as [|x l IH]; simpl; [done|].
  by rewrite insert_by_key_filter, !filter_cons, IH.
Qed.

End Sorting.

(** ** Running code in [M] *)

Lemma bind_run {A B : Type} (m : M A) (f : A → M B) (c : clock) :
  (m ≫= f) c = match m c with
               | Ok (a, c') => f a c'
               | Raise e => Raise e
               | Timeout => Timeout
               end.
Proof. reflexivity. Qed.

Lemma for_each_cons {A S : Type} (x : A) (l : list A) (body : A → S → M S) (s : S) :
  for_each (x :: l) body s = body x s ≫= for_each l body.
Proof. reflexivity. Qed.

Lemma mapM_outcome_ok {A : Type} (key : A → outcome Z) (kf : A → Z) (l : list A) :
  (∀ a, a ∈ l → key a = Ok (kf a)) → mapM key l = Ok (kf <$> l).
Proof.
  induction l as [|a l IH]; intros Hk; simpl; [done|].
  rewrite (Hk a) by left. simpl.
  rewrite IH; [done|]. intros b Hb. apply Hk. by right.
Qed.

(** ** The record objects under index construction *)

Lemma heap_set_eq h l t : heap_set h l t l = t.
Proof. unfold heap_set. by rewrite decide_True. Qed.

Lemma heap_set_ne h l t l' : l' ≠ l → heap_set h l t l' = h l'.
Proof. intros. unfold heap_set. by rewrite decide_False. Qed.

Lemma assign_ids_fields i txs h l :
  tx_fields (assign_ids i txs h l) = tx_fields (h l).
Proof.
  revert i h. induction txs as [|t rest IH]; intros i h; simpl; [done|].
  rewrite IH. destruct (tx_id (h t)) eqn:Ht; [done|].
  unfold heap_set. case_decide; by subst.
Qed.

Lemma assign_ids_keep i txs h l k :
  tx_id (h l) = Some k → assign_ids i txs h l = h l.
Proof.
  revert i h. induction txs as [|t rest IH]; intros i h Hl; simpl; [done|].
  destruct (tx_id (h t)) eqn:Ht; [by apply IH|].
  assert (l ≠ t) by congruence.
  rewrite IH; by rewrite heap_set_ne.
Qed.

Lemma assign_ids_outside i txs h l :
  l ∉ txs → assign_ids i txs h l = h l.
Proof.
  revert i h. induction txs as [|t rest IH]; intros i h Hl; simpl; [done|].
  apply not_elem_of_cons in Hl as [Hne Hl].
  rewrite IH by done. destruct (tx_id (h t)); [done|]. by rewrite heap_set_ne.
Qed.

Lemma assign_ids_first i txs h l j :
  txs !! j = Some l →
  (∀ j', (j' < j)%nat → txs !! j' ≠ Some l) →
  tx_id (h l) = None →
  tx_id (assign_ids i txs h l) = Some (Z.of_nat (i + j) + 1).
Proof.
  revert i h j. induction txs as [|t rest IH]; intros i h j Hj Hfirst Hl; [done|].
  destruct j as [|j]; simpl in *.
  - simplify_eq. rewrite Hl.
    rewrite (assign_ids_keep _ _ _ _ (Z.of_nat i + 1)); rewrite heap_set_eq; simpl; [|done].
    do 2 f_equal. lia.
  - assert (l ≠ t) as Hne.
    { intros ->. by apply (Hfirst 0%nat); [lia|]. }
    rewrite (IH (S i) _ j); [do 2 f_equal; lia|done| |].
    + intros j' Hj'. apply (Hfirst (S j')). lia.
    + destruct (tx_id (h t)); [done|]. by rewrite heap_set_ne.
Qed.

Lemma assign_ids_all i txs h : all_have_ids (assign_ids i txs h) txs.
Proof.
  revert i h. induction txs as [|t rest IH]; intros i h l Hl; [by inversion Hl|].
  simpl. destruct (decide (l ∈ rest)) as [Hin|Hout]; [by apply IH|].
  apply elem_of_cons in Hl as [->|]; [|done].
  rewrite assign_ids_outside by done.
  destruct (tx_id (h t)) eqn:Ht; [by rewrite Ht|]. by rewrite heap_set_eq.
Qed.

(** ** Sorting by a key function *)

Section SortedByKey.
Context {A : Type} (kf : A → Z).

Lemma zip_keys (l : list A) : zip (kf <$> l) l = (λ a, (kf a, a)) <$> l.
Proof. induction l as [|a l IH]; csimpl; [done|]. by rewrite IH. Qed.

Lemma decorated_zip (l : list A) : decorated kf (zip (kf <$> l) l).
Proof. rewrite zip_keys. unfold decorated. rewrite Forall_fmap. by apply Forall_true. Qed.

Lemma decorated_sort p : decorated kf p → decorated kf (sort_by_key p).
Proof. unfold decorated. by rewrite sort_by_key_perm. Qed.

Lemma decorated_sorted p :
  decorated kf p → StronglySorted key_le p →
  StronglySorted (λ a b, kf a ≤ kf b) (p.*2).
Proof.
  intros Hd Hs. induction Hs as [|y p Hs IH Hy]; simpl; [constructor|].
  apply Forall_cons in Hd as [Hy1 Hd].
  constructor; [by apply IH|].
  rewrite Forall_fmap. rewrite Forall_forall in Hy, Hd |- *.
  intros z Hz. simpl. specialize (Hy z Hz). specialize (Hd z Hz).
  unfold key_le in Hy. lia.
Qed.

Lemma decorated_filter k p :
  decorated kf p →
  filter (λ a, kf a = k) (p.*2) = (filter (λ y, y.1 = k) p).*2.
Proof.
  induction 1 as [|y p Hy Hd IH]; csimpl; [done|].
  rewrite !filter_cons, IH.
  repeat case_decide; csimpl; try done; congruence.
Qed.

Lemma sorted_perm (l : list A) : (sort_by_key (zip (kf <$> l) l)).*2 ≡ₚ l.
Proof.
  rewrite sort_by_key_perm, snd_zip; [done|]. by rewrite length_fmap.
Qed.

Lemma sorted_sorted (l : list A) :
  StronglySorted (λ a b, kf a ≤ kf b) ((sort_by_key (zip (kf <$> l) l)).*2).
Proof.
  apply decorated_sorted; [|apply sort_by_key_sorted].
  apply decorated_sort, decorated_zip.
Qed.

Lemma sorted_stable k (l : list A) :
  filter (λ a, kf a = k) ((sort_by_key (zip (kf <$> l) l)).*2)
  = filter (λ a, kf a = k) l.
Proof.
  rewrite decorated_filter by apply decorated_sort, decorated_zip.
  rewrite sort_by_key_stable.
  rewrite <- decorated_filter by apply decorated_zip.
  rewrite snd_zip; [done|]. by rewrite length_fmap.
Qed.

End SortedByKey.

Lemma filter_ext_in {A : Type} (P Q : A → Prop)
    `{!∀ x, Decision (P x), !∀ x, Decision (Q x)} (l : list A) :
  (∀ x, x ∈ l → P x ↔ Q x) → filter P l = filter Q l.
Proof.
  induction l as [|a l IH]; intros Hpq; [done|].
  assert (P a ↔ Q a) as [? ?] by (apply Hpq; by left).
  rewrite !filter_cons, IH by (intros; apply Hpq; by right).
  repeat case_decide; first [done | exfalso; auto].
Qed.

Lemma StronglySorted_impl_in {A : Type} (R1 R2 : relation A) (l : list A) :
  (∀ a b, a ∈ l → b ∈ l → R1 a b → R2 a b) →
  StronglySorted R1 l → StronglySorted R2 l.
Proof.
  intros Himpl Hs. induction Hs as [|a l Hs IH Ha]; [constructor|].
  constructor.
  - apply IH. intros; apply Himpl; by try right.
  - rewrite Forall_forall in Ha |- *. intros b Hb.
    apply Himpl; [by left|by right|by apply Ha].
Qed.

Lemma id_of_some h l : is_Some (tx_id (h l)) → tx_id (h l) = Some (id_of h l).
Proof. intros [k Hk]. unfold id_of. by rewrite Hk. Qed.

Lemma id_of_some_eq h l k : tx_id (h l) = Some k → id_of h l = k.
Proof. intros Hk. unfold id_of. by rewrite Hk. Qed.

(** [sorted(txs, key=lambda x: x['id'])] on records that all carry an
    identifier: it returns a rearrangement of [txs] in non-decreasing
    identifier order that keeps records of one identifier in order. *)
Lemma sorted_by_id h txs :
  all_have_ids h txs →
  ∃ s, sorted (λ x, getitem_id (h x)) txs = Ok s
       ∧ s ≡ₚ txs
       ∧ StronglySorted (id_le h) s
       ∧ ∀ k, filter (λ l, tx_id (h l) = Some k) s
              = filter (λ l, tx_id (h l) = Some k) txs.
Proof.
  intros Hall. exists ((sort_by_key (zip (id_of h <$> txs) txs)).*2).
  assert (Hiff : ∀ k l, l ∈ txs → tx_id (h l) = Some k ↔ id_of h l = k).
  { intros k l Hl. rewrite (id_of_some h l) by by apply Hall. naive_solver. }
  split; [|split; [|split]].
  - unfold sorted. rewrite (mapM_outcome_ok _ (id_of h)); [done|].
    intros a Ha. unfold getitem_id. by rewrite (id_of_some h a) by by apply Hall.
  - apply sorted_perm.
  - eapply StronglySorted_impl_in; [|apply (sorted_sorted (id_of h))].
    intros a b Ha Hb Hab. rewrite sorted_perm in Ha, Hb.
    exists (id_of h a), (id_of h b).
    split; [|split]; [by apply id_of_some, Hall..|done].
  - intros k.
    rewrite (filter_ext_in _ (λ l, id_of h l = k)).
    2:{ intros l Hl. apply Hiff. by rewrite sorted_perm in Hl. }
    rewrite sorted_stable. symmetry. by apply filter_ext_in, Hiff.
Qed.

(** [{t['id']: t for t in txs}]: the last record of each identifier wins. *)
Lemma dict_by_id_spec h txs d :
  all_have_ids h txs →
  ∃ d', dict_by_id h txs d = Ok d'
        ∧ ∀ k, d' !! k = match last (filter (λ l, tx_id (h l) = Some k) txs) with
                         | Some l => Some l
                         | None => d !! k
                         end.
Proof.
  revert d. induction txs as [|t rest IH]; intros d Hall; simpl.
  { by exists d. }
  destruct (Hall t) as [kt Hkt]; [by left|].
  unfold getitem_id at 1. rewrite Hkt. simpl.
  destruct (IH (<[kt:=t]> d)) as (d' & Hd' & Hlook).
  { intros l Hl. apply Hall. by right. }
  exists d'. split; [done|]. intros k. rewrite Hlook, filter_cons.
  case_decide as Hk.
  - rewrite last_cons. destruct (last _); [done|].
    simplify_eq. by rewrite lookup_insert_eq.
  - destruct (last _); [done|]. rewrite lookup_insert_ne; [done|]. congruence.
Qed.

(** ** The state index construction builds *)

(** Index construction never raises; it leaves the list in place. *)
Lemma init_built txs h :
  ∃ self, __init__ txs h = Ok (self, assign_ids 0 txs h)
          ∧ transactions self = txs
          ∧ built (assign_ids 0 txs h) self.
Proof.
  unfold __init__, _prepare_data_structures. simpl.
  pose proof (assign_ids_all 0 txs h) as Hall.
  destruct (dict_by_id_spec _ txs ∅ Hall) as (d & -> & Hd).
  destruct (sorted_by_id _ txs Hall) as (s & -> & Hp & Hs & Hst).
  simpl. eexists. split; [done|]. split; [done|].
  split; simpl; try done.
  intros k. rewrite Hd. by destruct (last _).
Qed.

Lemma init_inv txs h self h' :
  __init__ txs h = Ok (self, h') →
  h' = assign_ids 0 txs h ∧ transactions self = txs ∧ built h' self.
Proof.
  destruct (init_built txs h) as (self0 & Hinit & Htx & Hb).
  rewrite Hinit. intros [= <- <-]. done.
Qed.

(** ** The three strategies *)

Lemma get_id_eq_true t k : get_id_eq t k = true ↔ tx_id t = Some k.
Proof.
  unfold get_id_eq. destruct (tx_id t) as [k'|]; [|done].
  rewrite Z.eqb_eq. naive_solver.
Qed.

(** The unordered scan returns the first record of the list whose
    identifier matches. *)
Lemma linear_search_loop_run h tid start txs c :
  linear_search_loop h tid start txs c
  = Ok ((head (filter (λ l, tx_id (h l) = Some tid) txs),
         PrimFloat.sub (c 0%nat) start), λ n, c (S n)).
Proof.
  induction txs as [|t rest IH]; simpl; [done|].
  rewrite filter_cons.
  destruct (get_id_eq (h t) tid) eqn:Heq.
  - apply get_id_eq_true in Heq. by rewrite decide_True.
  - rewrite decide_False; [done|].
    intros Hid%get_id_eq_true. congruence.
Qed.

Lemma linear_search_run self h tid c :
  linear_search self h tid c
  = Ok ((head (filter (λ l, tx_id (h l) = Some tid) (transactions self)),
         PrimFloat.sub (c 1%nat) (c 0%nat)), λ n, c (S (S n))).
Proof. unfold linear_search. rewrite bind_run. simpl. by rewrite linear_search_loop_run. Qed.

Lemma dictionary_lookup_run self h tid c :
  dictionary_lookup self h tid c
  = Ok ((transactions_dict self !! tid,
         PrimFloat.sub (c 1%nat) (c 0%nat)), λ n, c (S (S n))).
Proof. reflexivity. Qed.

Lemma StronglySorted_lookup {A : Type} (R : relation A) (l : list A) i j a b :
  StronglySorted R l → (i < j)%nat → l !! i = Some a → l !! j = Some b → R a b.
Proof.
  intros Hs. revert i j. induction Hs as [|x l Hs IH Hx]; intros i j Hij Hi Hj; [done|].
  destruct j as [|j]; [lia|]. simpl in Hj.
  destruct i as [|i]; simpl in Hi.
  - simplify_eq. rewrite Forall_forall in Hx. apply Hx.
    by eapply list_elem_of_lookup_2.
  - apply (IH i j); [lia|done..].
Qed.

Lemma getitem_lookup {A : Type} (l : list A) (i : Z) (a : A) :
  0 ≤ i → l !! Z.to_nat i = Some a → getitem l i = Ok a.
Proof.
  intros Hi Hl. unfold getitem.
  destruct (Z.ltb_spec i 0); [lia|]. simpl.
  destruct (Z.ltb_spec i 0); [lia|]. by rewrite Hl.
Qed.

(** The bisection loop: with the records left of [left] below the target
    and those right of [right] above it, and one unit of fuel per index
    still in range, the loop ends with a right answer. *)
Lemma binary_search_loop_run fuel self h tid start left right c :
  all_have_ids h (sorted_transactions self) →
  StronglySorted (id_le h) (sorted_transactions self) →
  0 ≤ left → right < Z.of_nat (length (sorted_transactions self)) →
  right - left + 1 ≤ Z.of_nat fuel →
  (∀ i l, (Z.of_nat i < left) → sorted_transactions self !! i = Some l →
          id_of h l < tid) →
  (∀ i l, (right < Z.of_nat i) → sorted_transactions self !! i = Some l →
          tid < id_of h l) →
  ∃ r, binary_search_loop fuel self h tid start left right c
       = Ok ((r, PrimFloat.sub (c 0%nat) start), λ n, c (S n))
       ∧ search_answer h (sorted_transactions self) tid r.
Proof.
  intros Hall Hsorted. revert left right.
  induction fuel as [|fuel IH]; intros left right Hl Hr Hfuel Hlo Hhi.
  - simpl. destruct (Z.leb_spec left right); [lia|].
    exists None. split; [done|]. intros l [i Hi]%list_elem_of_lookup_1 Hid.
    apply id_of_some_eq in Hid.
    destruct (decide (Z.of_nat i < left)).
    + specialize (Hlo i l ltac:(lia) Hi). lia.
    + specialize (Hhi i l ltac:(lia) Hi). lia.
  - simpl. destruct (Z.leb_spec left right) as [Hle|Hgt].
    2:{ exists None. split; [done|]. intros l [i Hi]%list_elem_of_lookup_1 Hid.
        apply id_of_some_eq in Hid.
        destruct (decide (Z.of_nat i < left)).
        + specialize (Hlo i l ltac:(lia) Hi). lia.
        + specialize (Hhi i l ltac:(lia) Hi). lia. }
    set (mid := (left + right) `div` 2).
    assert (left ≤ mid ≤ right) as Hmid.
    { unfold mid. split.
      - apply Z.div_le_lower_bound; lia.
      - apply Z.div_le_upper_bound; lia. }
    destruct (lookup_lt_is_Some_2 (sorted_transactions self) (Z.to_nat mid)) as [t Ht];
      [lia|].
    rewrite bind_run, (getitem_lookup _ mid t) by (done || lia). simpl.
    assert (t ∈ sorted_transactions self) as Hin by by eapply list_elem_of_lookup_2.
    pose proof (id_of_some h t (Hall t Hin)) as Hidt.
    rewrite bind_run. unfold getitem_id. rewrite Hidt. simpl.
    assert (Hord : ∀ i j a b, (i ≤ j)%nat →
              sorted_transactions self !! i = Some a →
              sorted_transactions self !! j = Some b → id_of h a ≤ id_of h b).
    { intros i j a b Hij Ha Hb. destruct (decide (i = j)) as [->|].
      - simplify_eq. lia.
      - destruct (StronglySorted_lookup _ _ i j a b Hsorted) as (ka & kb & Hka & Hkb & ?);
          [lia|done..|].
        unfold id_of. rewrite Hka, Hkb. done. }
    destruct (Z.eqb_spec (id_of h t) tid) as [Heq|Hne].
    { exists (Some t). split; [done|]. split; [done|]. by rewrite Hidt, Heq. }
    destruct (Z.ltb_spec (id_of h t) tid) as [Hlt|Hge].
    + apply IH; try lia.
      * intros i l Hi Hil.
        pose proof (Hord i (Z.to_nat mid) l t ltac:(lia) Hil Ht). lia.
      * done.
    + apply IH; try lia.
      * done.
      * intros i l Hi Hil.
        pose proof (Hord (Z.to_nat mid) i t l ltac:(lia) Ht Hil). lia.
Qed.

(** The fuel of [binary_search] is enough on every state, built or not:
    the loop ends, by an answer or by an exception, before it runs out. *)
Lemma binary_search_loop_fuel fuel self h tid start left right c :
  right - left + 1 ≤ Z.of_nat fuel →
  binary_search_loop fuel self h tid start left right c ≠ Timeout.
Proof.
  revert left right. induction fuel as [|fuel IH]; intros left right Hfuel; simpl.
  - by destruct (Z.leb_spec left right); [lia|].
  - destruct (Z.leb_spec left right) as [Hle|Hgt]; [|done].
    assert (left ≤ (left + right) `div` 2 ≤ right) as Hmid.
    { split; [apply Z.div_le_lower_bound|apply Z.div_le_upper_bound]; lia. }
    rewrite bind_run.
    destruct (getitem (sorted_transactions self) _) as [t| |] eqn:Hget; simpl; [|done|].
    + rewrite bind_run.
      destruct (getitem_id (h t)) as [k| |] eqn:Hk; simpl; [|done|].
      * destruct (k =? tid); [done|]. destruct (k <? tid); apply IH; lia.
      * unfold getitem_id in Hk. by destruct (tx_id (h t)).
    + unfold getitem in Hget. repeat case_match; done.
Qed.

Lemma binary_search_terminates self h tid c : binary_search self h tid c ≠ Timeout.
Proof.
  unfold binary_search. rewrite bind_run. simpl.
  apply binary_search_loop_fuel. lia.
Qed.

(** ** Order of binary64 floats *)

Lemma SFcompare_refl a : a ≠ S754_nan → SFcompare a a = Some Eq.
Proof.
  destruct a as [s|s| |s m e]; simpl; intros Hn; try done.
  - by destruct s.
  - rewrite Z.compare_refl, Pos.compare_cont_refl. by destruct s.
Qed.

Lemma SFcompare_antisym a b c :
  SFcompare a b = Some c → SFcompare b a = Some (CompOpp c).
Proof.
  destruct a as [sa|sa| |sa ma ea], b as [sb|sb| |sb mb eb]; simpl;
    try done; intros [= <-]; try (by destruct sa); try (by destruct sb);
    try (by destruct sa, sb).
  rewrite !Pos.compare_cont_spec, (Z.compare_antisym ea eb), (Pos.compare_antisym ma mb).
  destruct sa, sb; simpl; try done;
    destruct (ea ?= eb); simpl; try done;
    by destruct (ma ?= mb)%positive.
Qed.

Lemma SFcompare_total a b :
  a ≠ S754_nan → b ≠ S754_nan → is_Some (SFcompare a b).
Proof. destruct a, b; simpl; intros; by eauto. Qed.

Lemma SFleb_trans a b c :
  SFleb a b = true → SFleb b c = true → SFleb a c = true.
Proof.
  unfold SFleb.
  destruct a as [sa|sa| |sa ma ea], b as [sb|sb| |sb mb eb], c as [sc|sc| |sc mc ec];
    simpl; try done;
    try (destruct sa; done); try (destruct sb; done); try (destruct sc; done);
    try (destruct sa, sb; done); try (destruct sb, sc; done); try (destruct sa, sc; done);
    try (destruct sa, sb, sc; done).
  rewrite !Pos.compare_cont_spec; simpl.
  destruct sa, sb, sc; simpl; try done;
    destruct (Z.compare_spec ea eb), (Z.compare_spec eb ec), (Z.compare_spec ea ec);
    simpl; try done; try lia; subst;
    destruct (Pos.compare_spec ma mb), (Pos.compare_spec mb mc), (Pos.compare_spec ma mc);
    simpl; try done; try lia.
Qed.

Lemma not_nan_spec x : not_nan x → Prim2SF x ≠ S754_nan.
Proof.
  unfold not_nan, PrimFloat.is_nan. rewrite FloatAxioms.eqb_spec. unfold SFeqb.
  intros H E. rewrite E in H. done.
Qed.

Lemma float_leb_refl x : not_nan x → PrimFloat.leb x x = true.
Proof.
  intros H%not_nan_spec. rewrite FloatAxioms.leb_spec. unfold SFleb.
  by rewrite SFcompare_refl.
Qed.

Lemma float_leb_trans x y z :
  PrimFloat.leb x y = true → PrimFloat.leb y z = true → PrimFloat.leb x z = true.
Proof. rewrite !FloatAxioms.leb_spec. apply SFleb_trans. Qed.

Lemma float_ltb_leb x y : PrimFloat.ltb x y = true → PrimFloat.leb x y = true.
Proof.
  rewrite FloatAxioms.ltb_spec, FloatAxioms.leb_spec. unfold SFltb, SFleb.
  by destruct (SFcompare _ _) as [[]|].
Qed.

Lemma float_nlt_leb x y :
  not_nan x → not_nan y → PrimFloat.ltb x y = false → PrimFloat.leb y x = true.
Proof.
  intros Hx%not_nan_spec Hy%not_nan_spec.
  rewrite FloatAxioms.ltb_spec, FloatAxioms.leb_spec. unfold SFltb, SFleb.
  destruct (SFcompare_total _ _ Hx Hy) as [c Hc].
  rewrite Hc, (SFcompare_antisym _ _ _ Hc). by destruct c.
Qed.

Lemma float_eqb_leb x y :
  PrimFloat.eqb x y = true ↔ PrimFloat.leb x y = true ∧ PrimFloat.leb y x = true.
Proof.
  rewrite FloatAxioms.eqb_spec, !FloatAxioms.leb_spec. unfold SFeqb, SFleb.
  destruct (SFcompare (Prim2SF x) (Prim2SF y)) as [c|] eqn:Hc.
  - rewrite (SFcompare_antisym _ _ _ Hc). destruct c; simpl; intuition congruence.
  - intuition congruence.
Qed.

Lemma float_pos_nonzero x : PrimFloat.ltb 0 x = true → PrimFloat.eqb x 0 = false.
Proof.
  rewrite FloatAxioms.ltb_spec, FloatAxioms.eqb_spec. unfold SFltb, SFeqb.
  destruct (SFcompare (Prim2SF 0) (Prim2SF x)) as [c|] eqn:Hc; [|done].
  apply SFcompare_antisym in Hc. rewrite Hc. by destruct c.
Qed.

(** ** Differences of finite floats *)

Lemma shr_1_nonneg mrs : 0 ≤ shr_m mrs → 0 ≤ shr_m (shr_1 mrs).
Proof. destruct mrs as [[|[p|p|]|p] r s]; simpl; lia. Qed.

Lemma iter_shr_1_nonneg p mrs :
  0 ≤ shr_m mrs → 0 ≤ shr_m (SpecFloat.iter_pos shr_1 p mrs).
Proof.
  revert mrs. induction p as [p IH|p IH|]; intros mrs Hm; simpl.
  - by apply IH, IH, shr_1_nonneg.
  - by apply IH, IH.
  - by apply shr_1_nonneg.
Qed.

Lemma shr_fexp_nonneg prec emax m e l :
  0 ≤ m → 0 ≤ shr_m (shr_fexp prec emax m e l).1.
Proof.
  intros Hm. unfold shr_fexp, shr.
  assert (0 ≤ shr_m (shr_record_of_loc m l)) by by destruct l as [|[]].
  destruct (_ - e); simpl; [done| |done]. by apply iter_shr_1_nonneg.
Qed.

Lemma round_nearest_even_nonneg m l : 0 ≤ m → 0 ≤ round_nearest_even m l.
Proof.
  intros Hm. destruct l as [|[]]; simpl; try lia. destruct (Z.even m); lia.
Qed.

Lemma binary_round_aux_not_nan prec emax sx mx ex lx :
  0 ≤ mx → binary_round_aux prec emax sx mx ex lx ≠ S754_nan.
Proof.
  intros Hm. unfold binary_round_aux.
  pose proof (shr_fexp_nonneg prec emax mx ex lx Hm) as H1.
  destruct (shr_fexp prec emax mx ex lx) as [mrs' e']. simpl in H1.
  pose proof (shr_fexp_nonneg prec emax _ e' loc_Exact
                (round_nearest_even_nonneg _ (loc_of_shr_record mrs') H1)) as H2.
  destruct (shr_fexp prec emax _ e' loc_Exact) as [mrs'' e'']. simpl in H2.
  destruct (shr_m mrs'') as [|m|m]; [done| |lia].
  by destruct (e'' <=? emax - prec).
Qed.

Lemma binary_normalize_not_nan prec emax m e szero :
  binary_normalize prec emax m e szero ≠ S754_nan.
Proof.
  unfold binary_normalize, binary_round.
  destruct m as [|m|m]; [done|..];
    destruct (shl_align _ _ _); by apply binary_round_aux_not_nan.
Qed.

Lemma SFsub_not_nan prec emax a b :
  SFfinite a → SFfinite b → SFsub prec emax a b ≠ S754_nan.
Proof.
  destruct a as [sa|sa| |sa ma ea], b as [sb|sb| |sb mb eb]; simpl; try done.
  - by destruct sa, sb.
  - intros _ _. apply binary_normalize_not_nan.
Qed.

Lemma is_finite_spec x : PrimFloat.is_finite x = true → SFfinite (Prim2SF x).
Proof.
  unfold PrimFloat.is_finite, PrimFloat.is_nan, PrimFloat.is_infinity.
  rewrite !FloatAxioms.eqb_spec, FloatAxioms.abs_spec.
  replace (Prim2SF infinity) with (S754_infinity false) by reflexivity.
  destruct (Prim2SF x) as [s|s| |s m e]; simpl; try done.
  by destruct s.
Qed.

Lemma sub_finite_not_nan x y :
  PrimFloat.is_finite x = true → PrimFloat.is_finite y = true →
  PrimFloat.is_nan (PrimFloat.sub x y) = false.
Proof.
  intros Hx%is_finite_spec Hy%is_finite_spec.
  unfold PrimFloat.is_nan. rewrite FloatAxioms.eqb_spec, FloatAxioms.sub_spec.
  pose proof (SFsub_not_nan prec emax _ _ Hx Hy) as Hn. unfold SF64sub.
  destruct (SFsub prec emax _ _) as [s|s| |s m e]; simpl; try done.
  - by destruct s.
  - unfold SFeqb, SFcompare.
    rewrite Z.compare_refl, Pos.compare_cont_refl. by destruct s.
Qed.

(** ** The comparator *)

Lemma binary_search_run self h tid c :
  built h self →
  ∃ r, binary_search self h tid c
       = Ok ((r, PrimFloat.sub (c 1%nat) (c 0%nat)), λ n, c (S (S n)))
       ∧ search_answer h (sorted_transactions self) tid r.
Proof.
  intros Hb. unfold binary_search. rewrite bind_run. simpl.
  destruct (binary_search_loop_run (length (sorted_transactions self)) self h tid
              (c 0%nat) 0 (Z.of_nat (length (sorted_transactions self)) - 1)
              (λ n, c (S n))) as (r & Hr & Hans); try lia.
  - intros l Hl. apply (built_ids _ _ Hb). by rewrite <- (built_perm _ _ Hb).
  - apply (built_sorted _ _ Hb).
  - intros i l Hi Hil%lookup_lt_Some. lia.
  - by exists r.
Qed.

Lemma speed_ratio_run num den c : speed_ratio num den c = Ok (ratio num den, c).
Proof.
  unfold speed_ratio, ratio. destruct (PrimFloat.ltb 0 den) eqn:Hpos; [|done].
  rewrite bind_run. unfold truediv, is_zero. by rewrite float_pos_nonzero.
Qed.

(** [compare_algorithms] never raises on a built state: it reads the clock
    six times and returns the report of the three answers. *)
Lemma compare_algorithms_run self h tid c :
  built h self →
  ∃ rb, search_answer h (sorted_transactions self) tid rb
        ∧ compare_algorithms self h tid c
          = Ok (report self tid
                  (head (filter (λ l, tx_id (h l) = Some tid) (transactions self)))
                  (transactions_dict self !! tid) rb
                  (PrimFloat.sub (c 1%nat) (c 0%nat))
                  (PrimFloat.sub (c 3%nat) (c 2%nat))
                  (PrimFloat.sub (c 5%nat) (c 4%nat)),
                λ n, c (6 + n)%nat).
Proof.
  intros Hb. unfold compare_algorithms.
  rewrite bind_run, linear_search_run.
  rewrite bind_run, dictionary_lookup_run.
  destruct (binary_search_run self h tid (λ n, c (S (S (S (S n))))) Hb) as (rb & Hrun & Hans).
  exists rb. split; [done|].
  rewrite bind_run, Hrun.
  rewrite bind_run, speed_ratio_run.
  rewrite bind_run, speed_ratio_run.
  rewrite bind_run, speed_ratio_run.
  reflexivity.
Qed.

(** ** Agreement of the strategies *)

Lemma unique_ids_spec h txs l1 l2 :
  unique_ids h txs → l1 ∈ txs → l2 ∈ txs → tx_id (h l1) = tx_id (h l2) → l1 = l2.
Proof.
  unfold unique_ids. rewrite Forall_forall. intros Hu H1 H2.
  specialize (Hu l1 H1). rewrite Forall_forall in Hu. by apply Hu.
Qed.

(** Under unique identifiers the first match, the last match and any
    right answer of a search of the sorted sequence are the same. *)
Lemma answers_agree h self tid rb :
  built h self → unique_ids h (transactions self) →
  search_answer h (sorted_transactions self) tid rb →
  let F := filter (λ l, tx_id (h l) = Some tid) (transactions self) in
  last F = head F ∧ rb = head F.
Proof.
  intros Hb Hu Hans F.
  assert (Hsame : ∀ x y, x ∈ F → y ∈ F → x = y).
  { intros x y [Hx ?]%list_elem_of_filter [Hy ?]%list_elem_of_filter.
    apply (unique_ids_spec h (transactions self)); [done..|congruence]. }
  assert (Hmem : ∀ l, l ∈ sorted_transactions self → tx_id (h l) = Some tid → l ∈ F).
  { intros l Hl Hid. apply list_elem_of_filter. split; [done|].
    by rewrite <- (built_perm _ _ Hb). }
  destruct F as [|x F'] eqn:HF.
  - split; [done|]. destruct rb as [l|]; [|done].
    destruct Hans as [Hl Hid]. specialize (Hmem l Hl Hid). by inversion Hmem.
  - assert (x ∈ x :: F') as Hx by left. split.
    + destruct (last (x :: F')) as [y|] eqn:Hlast.
      * simpl. f_equal. apply Hsame; [|done]. by eapply last_Some_elem_of.
      * by apply last_None in Hlast.
    + simpl. destruct rb as [l|].
      * destruct Hans as [Hl Hid]. f_equal. apply Hsame; [|done]. by apply Hmem.
      * exfalso. rewrite <- HF in Hx. apply list_elem_of_filter in Hx as [Hid Hin].
        apply (Hans x); [|done]. by rewrite (built_perm _ _ Hb).
Qed.

(** C1. Agreement: on the state index construction builds from any list
    of records, when no two records share an identifier afterwards, the
    unordered scan, the keyed lookup and the bisection return, for every
    queried identifier, the same answer: all three absent, or all three
    the very same record object, which carries that identifier. *)
Theorem strategies_agree txs h self h' tid c1 c2 c3 :
  __init__ txs h = Ok (self, h') →
  unique_ids h' txs →
  ∃ r e1 e2 e3 c1' c2' c3',
    linear_search self h' tid c1 = Ok ((r, e1), c1')
    ∧ dictionary_lookup self h' tid c2 = Ok ((r, e2), c2')
    ∧ binary_search self h' tid c3 = Ok ((r, e3), c3')
    ∧ match r with
      | Some l => l ∈ txs ∧ tx_id (h' l) = Some tid
      | None => ∀ l, l ∈ txs → tx_id (h' l) ≠ Some tid
      end.
Proof.
  intros (_ & Htx & Hb)%init_inv Hu. rewrite <- Htx in Hu |- *.
  destruct (binary_search_run self _ tid c3 Hb) as (rb & Hrun & Hans).
  destruct (answers_agree _ self tid rb Hb Hu Hans) as [Hlast ->].
  eexists _, _, _, _, _, _, _.
  split; [apply linear_search_run|].
  split; [rewrite dictionary_lookup_run, (built_dict _ _ Hb), Hlast; done|].
  split; [exact Hrun|].
  destruct (head _) as [l|] eqn:Hhead.
  - apply head_Some_elem_of in Hhead. by apply list_elem_of_filter in Hhead as [? ?].
  - apply head_None in Hhead. intros l Hl Hid.
    assert (l ∈ filter (λ l, tx_id (h' l) = Some tid) (transactions self))
      as Hin by by apply list_elem_of_filter.
    rewrite Hhead in Hin. by inversion Hin.
Qed.

(** Index construction on the sample data, whose records all carry an
    identifier, leaves them as they are. *)
Lemma sample_init : __init__ sample_locs sample_heap = Ok (sample_self, sample_heap).
Proof. vm_compute. reflexivity. Qed.

Lemma strategies_agree_witness :
  ∃ r e1 e2 e3 c1' c2' c3',
    linear_search sample_self sample_heap 2 ticking = Ok ((r, e1), c1')
    ∧ dictionary_lookup sample_self sample_heap 2 ticking = Ok ((r, e2), c2')
    ∧ binary_search sample_self sample_heap 2 ticking = Ok ((r, e3), c3')
    ∧ match r with
      | Some l => l ∈ sample_locs ∧ tx_id (sample_heap l) = Some 2
      | None => ∀ l, l ∈ sample_locs → tx_id (sample_heap l) ≠ Some 2
      end.
Proof.
  apply (strategies_agree sample_locs sample_heap sample_self sample_heap 2).
  - exact sample_init.
  - apply (bool_decide_unpack _). vm_compute. exact I.
Defined.

(** ** Index construction *)

(** C6. Sortedness: after index construction from any list of records,
    which never fails, the Sorted Sequence is a rearrangement of the list
    in non-decreasing identifier order, and the sort is stable: the
    records of each identifier are in the order they have in the list. *)
Theorem index_builder_sorted txs h :
  ∃ self h',
    __init__ txs h = Ok (self, h')
    ∧ sorted_transactions self ≡ₚ txs
    ∧ StronglySorted (id_le h') (sorted_transactions self)
    ∧ ∀ k, filter (λ l, tx_id (h' l) = Some k) (sorted_transactions self)
           = filter (λ l, tx_id (h' l) = Some k) txs.
Proof.
  destruct (init_built txs h) as (self & Hinit & Htx & Hb).
  exists self, (assign_ids 0 txs h). subst txs.
  split; [done|]. split; [apply Hb|]. split; [apply Hb|]. apply Hb.
Qed.

(** C8, counterexample: index construction changes the record of a
    one-record store that lacks an identifier: it writes identifier 1 into
    the caller's record object. *)
Lemma index_builder_mutates_record :
  tx_id (blank_heap 0%nat) = None
  ∧ (∃ self h', __init__ [0%nat] blank_heap = Ok (self, h')
                ∧ tx_id (h' 0%nat) = Some 1)
  ∧ ¬ records_unchanged [0%nat] blank_heap.
Proof.
  destruct (init_built [0%nat] blank_heap) as (self & Hinit & _).
  split; [done|]. split.
  - by exists self, (assign_ids 0 [0%nat] blank_heap).
  - intros Hun. specialize (Hun _ _ Hinit 0%nat). discriminate Hun.
Qed.

(** C8, amended. Index construction, which never fails, keeps the Record
    Store's sequence of records as it is; it changes no record that
    already carries an identifier, no record outside the store, and no
    field other than the identifier of any record. *)
Theorem index_builder_frame txs h :
  ∃ self h',
    __init__ txs h = Ok (self, h')
    ∧ transactions self = txs
    ∧ (∀ l, is_Some (tx_id (h l)) → h' l = h l)
    ∧ (∀ l, l ∉ txs → h' l = h l)
    ∧ (∀ l, tx_fields (h' l) = tx_fields (h l)).
Proof.
  destruct (init_built txs h) as (self & Hinit & Htx & Hb).
  exists self, (assign_ids 0 txs h).
  split; [done|]. split; [done|]. split; [|split].
  - intros l [k Hk]. by eapply assign_ids_keep.
  - intros l Hl. by apply assign_ids_outside.
  - intros l. apply assign_ids_fields.
Qed.

(** C10. Empty store: index construction on the empty list gives the
    empty structures, and for every queried identifier each strategy
    returns absent without raising; the bisection does so with no fuel at
    all, that is without entering its loop body. *)
Theorem empty_store_absent h tid c :
  let self := {| transactions := []; transactions_dict := ∅; sorted_transactions := [] |} in
  let absent := Ok ((None, PrimFloat.sub (c 1%nat) (c 0%nat)), λ n, c (S (S n))) in
  __init__ [] h = Ok (self, h)
  ∧ linear_search self h tid c = absent
  ∧ dictionary_lookup self h tid c = absent
  ∧ binary_search self h tid c = absent
  ∧ Z.of_nat (length (sorted_transactions self)) - 1 = -1
  ∧ ∀ start right c', right < 0 →
      binary_search_loop 0 self h tid start 0 right c'
      = Ok ((None, PrimFloat.sub (c' 0%nat) start), λ n, c' (S n)).
Proof.
  repeat split.
  intros start right c' Hr. simpl.
  by destruct (Z.leb_spec 0 right); [lia|].
Qed.

(** ** Identifiers at initial load *)

Lemma load_loop_lookup i data d j t :
  data !! j = Some t →
  (Api.load_loop i data d).1 !! j = Some (set_id t (Z.of_nat (i + j) + 1)).
Proof.
  revert i d j. induction data as [|t0 rest IH]; intros i d j Hj; [done|].
  simpl. destruct (Api.load_loop (S i) rest _) as [txs' d'] eqn:Hloop.
  destruct j as [|j]; simpl in *.
  - simplify_eq. do 3 f_equal. lia.
  - specialize (IH (S i) (<[Z.of_nat i + 1 := set_id t0 (Z.of_nat i + 1)]> d) j Hj).
    rewrite Hloop in IH. simpl in IH. rewrite IH. do 3 f_equal. lia.
Qed.

Lemma load_loop_length i data d : length (Api.load_loop i data d).1 = length data.
Proof.
  revert i d. induction data as [|t0 rest IH]; intros i d; [done|].
  simpl. specialize (IH (S i) (<[Z.of_nat i + 1 := set_id t0 (Z.of_nat i + 1)]> d)).
  destruct (Api.load_loop (S i) rest _). simpl in *. by rewrite IH.
Qed.

Lemma load_transactions_lookup data j t :
  data !! j = Some t →
  Api.transactions (Api.load_transactions (Some data)) !! j
  = Some (set_id t (Z.of_nat j + 1)).
Proof.
  intros Hj. unfold Api.load_transactions.
  pose proof (load_loop_lookup 0 data ∅ j t Hj) as Hl.
  destruct (Api.load_loop 0 data ∅). done.
Qed.

(** C7, counterexample: the API's loader reassigns the identifier of a
    record that already carries one: the record with identifier 7, alone
    in the file, is stored with identifier 1. *)
Lemma load_transactions_reassigns :
  tx_id carried = Some 7
  ∧ Api.ids (Api.load_transactions (Some [carried])) = [Some 1].
Proof. done. Qed.

(** The API's loader numbers every record it reads by its 1-based
    position, whatever identifier the record carried. *)
Lemma load_transactions_numbers_by_position data :
  length (Api.transactions (Api.load_transactions (Some data))) = length data
  ∧ ∀ j t, data !! j = Some t →
      ∃ t', Api.transactions (Api.load_transactions (Some data)) !! j = Some t'
            ∧ tx_id t' = Some (Z.of_nat j + 1)
            ∧ tx_fields t' = tx_fields t.
Proof.
  split.
  - unfold Api.load_transactions.
    pose proof (load_loop_length 0 data ∅) as Hlen.
    by destruct (Api.load_loop 0 data ∅).
  - intros j t Hj. exists (set_id t (Z.of_nat j + 1)).
    split; [by apply load_transactions_lookup|done].
Qed.

(** C7, amended. At index construction ([_prepare_data_structures]),
    which never fails, an identifier is assigned only to the records of
    the list that lack one, set to the 1-based position at which the
    record first occurs in the list; a record that already carries an
    identifier keeps it, and no record outside the list is given one. *)
Theorem index_builder_assigns_ids txs h :
  ∃ self h',
    __init__ txs h = Ok (self, h')
    ∧ (∀ l k, tx_id (h l) = Some k → tx_id (h' l) = Some k)
    ∧ (∀ l, l ∉ txs → tx_id (h' l) = tx_id (h l))
    ∧ (∀ j l, txs !! j = Some l → tx_id (h l) = None →
              (∀ j', (j' < j)%nat → txs !! j' ≠ Some l) →
              tx_id (h' l) = Some (Z.of_nat j + 1)).
Proof.
  destruct (init_built txs h) as (self & Hinit & _).
  exists self, (assign_ids 0 txs h). split; [done|]. split; [|split].
  - intros l k Hk. by rewrite (assign_ids_keep _ _ _ _ k).
  - intros l Hl. by rewrite assign_ids_outside.
  - intros j l Hj Hl Hfirst. by rewrite (assign_ids_first 0 txs h l j).
Qed.

(** ** The API's mutators and the uniqueness of identifiers *)

(** An accepted DELETE drops the records with the identifier from the
    list and the key from the dictionary. *)
Lemma do_DELETE_accepted self k t c :
  k ≠ 0 → Api.transactions_dict self !! k = Some t → truthy t = true →
  Api.do_DELETE self (delete_request k) c
  = Ok ((200, {| Api.transactions :=
                   List.filter (λ t, negb (get_id_eq t k)) (Api.transactions self);
                 Api.transactions_dict := delete k (Api.transactions_dict self) |}),
        λ n, c (S (S n))).
Proof.
  intros Hk Hlook Ht. unfold Api.do_DELETE. simpl.
  destruct (Z.eqb_spec k 0); [done|].
  rewrite bind_run. unfold Api.dictionary_lookup. simpl.
  rewrite Hlook. simpl. by rewrite Ht.
Qed.

(** An accepted POST appends the new record, numbered by the length of
    the list plus one, and stores it under that key. *)
Lemma do_POST_accepted self t c :
  forallb (λ field, bool_decide (is_Some (tx_fields t !! field))) Api.required_fields = true →
  let k := Z.of_nat (length (Api.transactions self)) + 1 in
  let new_transaction := set_field (set_id t k) "created_at" (VFloat (c 0%nat)) in
  Api.do_POST self (create_request t) c
  = Ok ((201, {| Api.transactions := Api.transactions self ++ [new_transaction];
                 Api.transactions_dict :=
                   <[k := new_transaction]> (Api.transactions_dict self) |}),
        λ n, c (S n)).
Proof.
  intros Hreq. unfold Api.do_POST, create_request.
  cbn [Api.authenticated Api.path Api.body negb]. by rewrite Hreq.
Qed.

Lemma replace_first_ids k u txs :
  tx_id u = Some k → tx_id <$> Api.replace_first k u txs = tx_id <$> txs.
Proof.
  intros Hu. induction txs as [|t rest IH]; [done|]. simpl.
  destruct (get_id_eq t k) eqn:Ht; csimpl.
  - apply get_id_eq_true in Ht. by rewrite Hu, Ht.
  - by rewrite IH.
Qed.

(** Update and delete keep the identifiers of the store distinct: an
    update leaves the list of identifiers as it is, a delete removes
    entries from it. *)
Lemma do_PUT_ids self req c code self' c' :
  Api.do_PUT self req c = Ok ((code, self'), c') → Api.ids self' = Api.ids self.
Proof.
  unfold Api.do_PUT. destruct (negb _); [by intros [= <- <- <-]|].
  destruct (Api.path req) as [|k|]; try by intros [= <- <- <-].
  destruct (k =? 0); [by intros [= <- <- <-]|].
  rewrite bind_run. unfold Api.dictionary_lookup. simpl.
  destruct (Api.falsy _); [by intros [= <- <- <-]|].
  destruct (Api.body req) as [u|missing| |]; try by intros [= <- <- <-].
  intros [= <- <- <-]. unfold Api.ids. simpl. by apply replace_first_ids.
Qed.

Lemma do_DELETE_ids self req c code self' c' :
  Api.do_DELETE self req c = Ok ((code, self'), c') →
  NoDup (Api.ids self) → NoDup (Api.ids self').
Proof.
  unfold Api.do_DELETE. destruct (negb _); [by intros [= <- <- <-]|].
  destruct (Api.path req) as [|k|]; try by intros [= <- <- <-].
  destruct (k =? 0); [by intros [= <- <- <-]|].
  rewrite bind_run. unfold Api.dictionary_lookup. simpl.
  destruct (Api.falsy _); [by intros [= <- <- <-]|].
  intros [= <- <- <-]. unfold Api.ids. simpl.
  induction (Api.transactions self) as [|t rest IH]; [done|]. csimpl.
  intros [Hnin Hnd]%NoDup_cons. destruct (negb _); csimpl; [|by apply IH].
  apply NoDup_cons. split; [|by apply IH].
  intros Hin. apply Hnin.
  apply list_elem_of_fmap in Hin as (t' & -> & Hin).
  apply list_elem_of_fmap. exists t'. split; [done|].
  apply list_elem_of_In, filter_In in Hin as [Hin _]. by apply list_elem_of_In.
Qed.

(** A creation does not keep them distinct on every store: [do_POST]
    numbers the new record by the length of the list plus one. Were
    [do_DELETE] and then [do_POST] called on one handler object, whose
    store was loaded from three messages, two records would carry
    identifier 3. (No request meets such a store: each is served by a
    handler of its own, see [Server.handle].) *)
Lemma create_after_delete_on_one_handler c :
  let s0 := Api.load_transactions (Some [sms; sms; sms]) in
  Api.ids s0 = [Some 1; Some 2; Some 3]
  ∧ ∃ s1 c1 s2 c2,
      Api.do_DELETE s0 (delete_request 1) c = Ok ((200, s1), c1)
      ∧ Api.ids s1 = [Some 2; Some 3]
      ∧ Api.do_POST s1 (create_request sms) c1 = Ok ((201, s2), c2)
      ∧ Api.ids s2 = [Some 2; Some 3; Some 3]
      ∧ ¬ NoDup (Api.ids s2).
Proof.
  split; [done|].
  eexists _, _, _, _.
  split; [by apply (do_DELETE_accepted _ 1 (set_id sms 1))|].
  split; [done|].
  split; [by apply do_POST_accepted|].
  split; [done|].
  intros Hnd. apply NoDup_cons in Hnd as [_ Hnd]. apply NoDup_cons in Hnd as [Hin _].
  apply Hin. left.
Qed.

(** ** The benchmark *)

(** C2, the code at the failing input. On an empty batch [benchmark_algorithms]
    runs no strategy, then divides the zero total of the first strategy by
    the batch size 0: it raises [ZeroDivisionError]. *)
Theorem benchmark_empty_batch_divides_by_zero self h c :
  benchmark_algorithms self h [] c = Raise ZeroDivisionError.
Proof. reflexivity. Qed.

Lemma aggregate_run comparison b c :
  for_each all_algorithms (λ a b, mret (aggregate comparison a b)) b c
  = Ok (aggregated comparison b, c).
Proof. reflexivity. Qed.

Lemma aggregated_rate comparison b a :
  success_rate (Benchmark.algorithms (aggregated comparison b) a)
  = if found (Comparison.algorithms comparison a)
    then add (success_rate (Benchmark.algorithms b a)) (PyInt 1)
    else success_rate (Benchmark.algorithms b a).
Proof.
  destruct a; unfold aggregated, aggregate, set_stats; simpl;
    by destruct (found _).
Qed.

Lemma hits_cons a r reports :
  hits a (r :: reports)
  = ((if found (Comparison.algorithms r a) then 1 else 0) + hits a reports)%nat.
Proof.
  unfold hits. rewrite filter_cons.
  destruct (found (Comparison.algorithms r a)); by case_decide.
Qed.

(** The loop over the batch: it never raises on a built state, appends
    one report per identifier, in order, and counts a strategy's hits in
    its [success_rate]. *)
Lemma benchmark_loop_run self h test_ids b c :
  built h self →
  ∃ b' c' news,
    for_each test_ids (λ test_id b,
      comparison ← compare_algorithms self h test_id;
      for_each all_algorithms (λ a b, mret (aggregate comparison a b))
        (append_result b comparison)) b c = Ok (b', c')
    ∧ Benchmark.detailed_results b' = Benchmark.detailed_results b ++ news
    ∧ Comparison.transaction_id <$> news = test_ids
    ∧ ∀ a z, success_rate (Benchmark.algorithms b a) = PyInt z →
             success_rate (Benchmark.algorithms b' a) = PyInt (z + Z.of_nat (hits a news)).
Proof.
  intros Hb. revert b c. induction test_ids as [|test_id rest IH]; intros b c.
  - exists b, c, []. simpl. rewrite app_nil_r. repeat split.
    intros a z ->. f_equal. unfold hits. simpl. lia.
  - destruct (compare_algorithms_run self h test_id c Hb) as (rb & _ & Hrun).
    set (comparison := report _ _ _ _ _ _ _ _) in Hrun.
    destruct (IH (aggregated comparison (append_result b comparison)) (λ n, c (6 + n)%nat))
      as (b' & c' & news & Hloop & Hres & Hids & Hrate).
    exists b', c', (comparison :: news).
    split; [|split; [|split]].
    + rewrite for_each_cons, bind_run, bind_run, Hrun. lazy beta iota.
      rewrite aggregate_run. exact Hloop.
    + rewrite Hres. simpl. by rewrite <- app_assoc.
    + csimpl. by rewrite Hids.
    + intros a z Hz. rewrite hits_cons.
      pose proof (aggregated_rate comparison (append_result b comparison) a) as Hagg.
      change (Benchmark.algorithms (append_result b comparison) a)
        with (Benchmark.algorithms b a) in Hagg.
      rewrite Hz in Hagg.
      destruct (found (Comparison.algorithms comparison a)).
      * rewrite (Hrate a (z + 1) Hagg). f_equal; lia.
      * rewrite (Hrate a z Hagg). f_equal; lia.
Qed.

Lemma average_run n a b c :
  n ≠ 0%nat →
  let st := Benchmark.algorithms b a in
  average n a b c
  = Ok (set_stats b a
          {| total_time := total_time st;
             avg_time := PyFloat (PrimFloat.div (to_float (total_time st))
                                    (float_of_int (Z.of_nat n)));
             success_rate :=
               mul (PyFloat (PrimFloat.div (to_float (success_rate st))
                               (float_of_int (Z.of_nat n))))
                 (PyInt 100) |}, c).
Proof.
  intros Hn st. unfold average, truediv, is_zero.
  destruct (Z.eqb_spec (Z.of_nat n) 0); [lia|]. reflexivity.
Qed.

(** The averaging loop: with a non-empty batch it never raises, and turns
    every count of hits into a percentage. *)
Lemma averages_run n b c :
  n ≠ 0%nat →
  ∃ b', for_each all_algorithms (average n) b c = Ok (b', c)
        ∧ Benchmark.detailed_results b' = Benchmark.detailed_results b
        ∧ ∀ a, success_rate (Benchmark.algorithms b' a)
               = mul (PyFloat (PrimFloat.div
                                 (to_float (success_rate (Benchmark.algorithms b a)))
                                 (float_of_int (Z.of_nat n))))
                   (PyInt 100).
Proof.
  intros Hn. eexists. split; [|split].
  - unfold all_algorithms, for_each.
    rewrite bind_run, average_run by done. simpl.
    rewrite bind_run, average_run by done. simpl.
    rewrite bind_run, average_run by done. simpl.
    reflexivity.
  - reflexivity.
  - by intros [].
Qed.

(** C3, counterexample: on the three sample records, the batch of the one
    identifier 1, which every strategy finds, gives the unordered scan
    the success rate 100.0, not 1/1 = 1.0. *)
Lemma success_rate_is_a_percentage :
  match benchmark_algorithms sample_self sample_heap [1] ticking with
  | Ok (b, _) =>
      hits LinearSearch (Benchmark.detailed_results b) = 1%nat
      ∧ success_rate (Benchmark.algorithms b LinearSearch) = PyFloat 100
      ∧ spec_success_rate LinearSearch (Benchmark.detailed_results b) 1 = PyFloat 1
      ∧ success_rate (Benchmark.algorithms b LinearSearch)
        ≠ spec_success_rate LinearSearch (Benchmark.detailed_results b) 1
  | _ => False
  end.
Proof.
  vm_compute. repeat split. discriminate.
Qed.

(** ** Fastest, slowest and the speed ratios *)

(** Whatever the state, a bisection that returns has read the clock once
    more, for its elapsed time. *)
Lemma binary_search_loop_inv fuel self h tid start left right c r e c' :
  binary_search_loop fuel self h tid start left right c = Ok ((r, e), c') →
  e = PrimFloat.sub (c 0%nat) start ∧ c' = λ n, c (S n).
Proof.
  revert left right. induction fuel as [|fuel IH]; intros left right; simpl.
  - destruct (left <=? right); [done|]. by intros [= <- <- <-].
  - destruct (left <=? right); [|by intros [= <- <- <-]].
    rewrite bind_run.
    destruct (getitem (sorted_transactions self) _) as [t| |]; simpl; [|done..].
    rewrite bind_run. destruct (getitem_id (h t)) as [k| |]; simpl; [|done..].
    destruct (k =? tid); [by intros [= <- <- <-]|].
    destruct (k <? tid); apply IH.
Qed.

Lemma binary_search_inv self h tid c r e c' :
  binary_search self h tid c = Ok ((r, e), c') →
  e = PrimFloat.sub (c 1%nat) (c 0%nat) ∧ c' = λ n, c (S (S n)).
Proof.
  unfold binary_search. rewrite bind_run. simpl.
  by intros [-> ->]%binary_search_loop_inv.
Qed.

(** Every report [compare_algorithms] returns, on whatever state, is the
    [report] of three answers and of the three elapsed times read from
    the clock. *)
Lemma compare_algorithms_inv self h tid c r c' :
  compare_algorithms self h tid c = Ok (r, c') →
  ∃ rl rd rb,
    r = report self tid rl rd rb
          (PrimFloat.sub (c 1%nat) (c 0%nat))
          (PrimFloat.sub (c 3%nat) (c 2%nat))
          (PrimFloat.sub (c 5%nat) (c 4%nat)).
Proof.
  unfold compare_algorithms.
  rewrite bind_run, linear_search_run, bind_run, dictionary_lookup_run, bind_run.
  destruct (binary_search self h tid _) as [[[rb eb] c3]| |] eqn:Hbin; [|done..].
  apply binary_search_inv in Hbin as [-> ->].
  rewrite bind_run, speed_ratio_run, bind_run, speed_ratio_run, bind_run, speed_ratio_run.
  intros [= <- <-]. by eexists _, _, _.
Qed.

Lemma min3_spec x y z :
  not_nan x → not_nan y → not_nan z →
  let m := min x [y; z] in
  (m = x ∨ m = y ∨ m = z)
  ∧ PrimFloat.leb m x = true ∧ PrimFloat.leb m y = true ∧ PrimFloat.leb m z = true.
Proof.
  intros Hx Hy Hz. unfold min. simpl.
  destruct (PrimFloat.ltb y x) eqn:Hyx; destruct (PrimFloat.ltb z _) eqn:Hz1.
  - pose proof (float_ltb_leb _ _ Hyx). pose proof (float_ltb_leb _ _ Hz1).
    split; [auto|]. split; [by eapply float_leb_trans|].
    split; [done|by apply float_leb_refl].
  - split; [auto|]. split; [by apply float_ltb_leb|].
    split; [by apply float_leb_refl|by apply float_nlt_leb].
  - pose proof (float_nlt_leb _ _ Hy Hx Hyx). pose proof (float_ltb_leb _ _ Hz1).
    split; [auto|]. split; [done|].
    split; [by eapply float_leb_trans|by apply float_leb_refl].
  - split; [auto|]. split; [by apply float_leb_refl|].
    split; [by apply float_nlt_leb|by apply float_nlt_leb].
Qed.

Lemma max3_spec x y z :
  not_nan x → not_nan y → not_nan z →
  let m := max x [y; z] in
  (m = x ∨ m = y ∨ m = z)
  ∧ PrimFloat.leb x m = true ∧ PrimFloat.leb y m = true ∧ PrimFloat.leb z m = true.
Proof.
  intros Hx Hy Hz. unfold max. simpl.
  destruct (PrimFloat.ltb x y) eqn:Hxy; destruct (PrimFloat.ltb _ z) eqn:Hz1.
  - pose proof (float_ltb_leb _ _ Hxy). pose proof (float_ltb_leb _ _ Hz1).
    split; [auto|]. split; [by eapply float_leb_trans|].
    split; [done|by apply float_leb_refl].
  - split; [auto|]. split; [by apply float_ltb_leb|].
    split; [by apply float_leb_refl|by apply float_nlt_leb].
  - pose proof (float_nlt_leb _ _ Hx Hy Hxy). pose proof (float_ltb_leb _ _ Hz1).
    split; [auto|]. split; [done|].
    split; [by eapply float_leb_trans|by apply float_leb_refl].
  - split; [auto|]. split; [by apply float_leb_refl|].
    split; [by apply float_nlt_leb|by apply float_nlt_leb].
Qed.

Lemma float_eqb_refl x : not_nan x → PrimFloat.eqb x x = true.
Proof. intros Hx. apply float_eqb_leb. split; by apply float_leb_refl. Qed.

(** Fastest and slowest in the report of three elapsed times that are
    numbers. *)
Lemma fastest_slowest_of_times self tid rl rd rb el ed eb :
  not_nan el → not_nan ed → not_nan eb →
  let r := report self tid rl rd rb el ed eb in
  let fastest := Comparison.fastest_algorithm (Comparison.performance_analysis r) in
  let slowest := Comparison.slowest_algorithm (Comparison.performance_analysis r) in
  minimal r fastest
  ∧ maximal r slowest
  ∧ (minimal r DictionaryLookup → fastest = DictionaryLookup)
  ∧ (minimal r BinarySearch → fastest ≠ LinearSearch)
  ∧ (maximal r LinearSearch → slowest = LinearSearch)
  ∧ (maximal r BinarySearch → slowest ≠ DictionaryLookup).
Proof.
  intros Hl Hd Hbn. cbv zeta.
  destruct (min3_spec el ed eb Hl Hd Hbn) as (Hmin & Hml & Hmd & Hmb).
  destruct (max3_spec el ed eb Hl Hd Hbn) as (Hmax & Hxl & Hxd & Hxb).
  unfold minimal, maximal, elapsed, report.
  cbn [Comparison.algorithms Comparison.performance_analysis
       Comparison.fastest_algorithm Comparison.slowest_algorithm].
  revert Hmin Hml Hmd Hmb Hmax Hxl Hxd Hxb.
  generalize (min el [ed; eb]) (max el [ed; eb]).
  intros m x Hmin Hml Hmd Hmb Hmax Hxl Hxd Hxb.
  assert (Hlow : ∀ t, PrimFloat.leb m t = true →
                      PrimFloat.leb t el = true → PrimFloat.leb t ed = true →
                      PrimFloat.leb t eb = true → PrimFloat.eqb t m = true).
  { intros t ? ? ? ?. apply float_eqb_leb. split; [|done].
    by destruct Hmin as [->|[->| ->]]. }
  assert (Hhigh : ∀ t, PrimFloat.leb t x = true →
                       PrimFloat.leb el t = true → PrimFloat.leb ed t = true →
                       PrimFloat.leb eb t = true → PrimFloat.eqb t x = true).
  { intros t ? ? ? ?. apply float_eqb_leb. split; [done|].
    by destruct Hmax as [->|[->| ->]]. }
  split; [|split; [|split; [|split; [|split]]]].
  - destruct (PrimFloat.eqb ed m) eqn:Hed; [|destruct (PrimFloat.eqb eb m) eqn:Heb].
    + apply float_eqb_leb in Hed as [Hed _].
      intros []; simpl; by apply (float_leb_trans _ m).
    + apply float_eqb_leb in Heb as [Heb _].
      intros []; simpl; by apply (float_leb_trans _ m).
    + destruct Hmin as [Hm|[Hm|Hm]]; subst m.
      * intros []; simpl; [by apply float_leb_refl|done..].
      * by rewrite float_eqb_refl in Hed.
      * by rewrite float_eqb_refl in Heb.
  - destruct (PrimFloat.eqb el x) eqn:Hel; [|destruct (PrimFloat.eqb eb x) eqn:Heb].
    + apply float_eqb_leb in Hel as [_ Hel].
      intros []; simpl; by apply (float_leb_trans _ x).
    + apply float_eqb_leb in Heb as [_ Heb].
      intros []; simpl; by apply (float_leb_trans _ x).
    + destruct Hmax as [Hm|[Hm|Hm]]; subst x.
      * by rewrite float_eqb_refl in Hel.
      * intros []; simpl; [done|by apply float_leb_refl|done].
      * by rewrite float_eqb_refl in Heb.
  - intros Hdict.
    by rewrite (Hlow ed Hmd (Hdict LinearSearch) (Hdict DictionaryLookup)
                  (Hdict BinarySearch)).
  - intros Hbin.
    rewrite (Hlow eb Hmb (Hbin LinearSearch) (Hbin DictionaryLookup) (Hbin BinarySearch)).
    by destruct (PrimFloat.eqb ed m).
  - intros Hlin.
    by rewrite (Hhigh el Hxl (Hlin LinearSearch) (Hlin DictionaryLookup)
                  (Hlin BinarySearch)).
  - intros Hbin.
    rewrite (Hhigh eb Hxb (Hbin LinearSearch) (Hbin DictionaryLookup) (Hbin BinarySearch)).
    by destruct (PrimFloat.eqb el x).
Qed.

(** C4. Fastest and slowest: in every report [compare_algorithms]
    returns, on whatever state, under a clock whose readings are finite
    numbers, the strategy named fastest has a minimal elapsed time and
    the one named slowest a maximal one; among the strategies tied for
    the minimum the keyed lookup is named before the bisection, and the
    bisection before the scan; among those tied for the maximum the scan
    is named before the bisection, and the bisection before the keyed
    lookup. *)
Theorem fastest_slowest_precedence self h tid c r c' :
  finite_clock c →
  compare_algorithms self h tid c = Ok (r, c') →
  let fastest := Comparison.fastest_algorithm (Comparison.performance_analysis r) in
  let slowest := Comparison.slowest_algorithm (Comparison.performance_analysis r) in
  minimal r fastest
  ∧ maximal r slowest
  ∧ (minimal r DictionaryLookup → fastest = DictionaryLookup)
  ∧ (minimal r BinarySearch → fastest ≠ LinearSearch)
  ∧ (maximal r LinearSearch → slowest = LinearSearch)
  ∧ (maximal r BinarySearch → slowest ≠ DictionaryLookup).
Proof.
  intros Hc (rl & rd & rb & ->)%compare_algorithms_inv.
  apply fastest_slowest_of_times; by apply sub_finite_not_nan.
Qed.

Lemma fastest_slowest_precedence_witness :
  let fastest := Comparison.fastest_algorithm (Comparison.performance_analysis tie_report) in
  let slowest := Comparison.slowest_algorithm (Comparison.performance_analysis tie_report) in
  minimal tie_report fastest
  ∧ maximal tie_report slowest
  ∧ (minimal tie_report DictionaryLookup → fastest = DictionaryLookup)
  ∧ (minimal tie_report BinarySearch → fastest ≠ LinearSearch)
  ∧ (maximal tie_report LinearSearch → slowest = LinearSearch)
  ∧ (maximal tie_report BinarySearch → slowest ≠ DictionaryLookup).
Proof.
  apply (fastest_slowest_precedence sample_self sample_heap 2 frozen_clock tie_report
           frozen_clock).
  - intros n. reflexivity.
  - vm_compute. reflexivity.
Defined.

Lemma float_zero_not_pos x : PrimFloat.eqb x 0 = true → PrimFloat.ltb 0 x = false.
Proof.
  rewrite FloatAxioms.ltb_spec, FloatAxioms.eqb_spec. unfold SFltb, SFeqb.
  destruct (SFcompare (Prim2SF x) (Prim2SF 0)) as [cmp|] eqn:Hc; [|done].
  apply SFcompare_antisym in Hc. rewrite Hc. by destruct cmp.
Qed.

(** C5, counterexample: when the scan (1 s) beats the keyed lookup (2 s),
    the report's ratio for that pair is 1/2, the faster time over the
    slower one, where the claim has 2/1. *)
Lemma ratio_is_not_slower_over_faster :
  match compare_algorithms sample_self sample_heap 1 scan_first_clock with
  | Ok (r, _) =>
      elapsed r LinearSearch = 1%float
      ∧ elapsed r DictionaryLookup = 2%float
      ∧ dictionary_vs_linear
          (Comparison.speed_improvement (Comparison.performance_analysis r))
        = Faster 0.5
      ∧ spec_ratio (elapsed r DictionaryLookup) (elapsed r LinearSearch) = Faster 2
      ∧ dictionary_vs_linear
          (Comparison.speed_improvement (Comparison.performance_analysis r))
        ≠ spec_ratio (elapsed r DictionaryLookup) (elapsed r LinearSearch)
  | _ => False
  end.
Proof. vm_compute. repeat split. discriminate. Qed.

Lemma ratio_shows_quotient num den : shows_quotient num den (ratio num den).
Proof.
  unfold shows_quotient, ratio. split; [|split].
  - by intros ->.
  - by intros ->.
  - intros Hz. by rewrite float_zero_not_pos.
Qed.

(** C5, amended. Speed ratios: on the state index construction builds,
    [compare_algorithms] never raises, and its report shows, for the
    fixed pairs "dictionary vs linear", "binary vs linear" and
    "dictionary vs binary", the quotients elapsed(linear)/elapsed(dictionary),
    elapsed(linear)/elapsed(binary) and elapsed(binary)/elapsed(dictionary)
    of the elapsed times it records, whichever strategy of the pair was
    in fact slower; a ratio is shown as unavailable, and no division is
    performed, whenever its denominator is not positive, in particular
    whenever it is zero. *)
Theorem speed_ratios txs h self h' tid c :
  __init__ txs h = Ok (self, h') →
  ∃ r c',
    compare_algorithms self h' tid c = Ok (r, c')
    ∧ let s := Comparison.speed_improvement (Comparison.performance_analysis r) in
      shows_quotient (elapsed r LinearSearch) (elapsed r DictionaryLookup)
        (dictionary_vs_linear s)
      ∧ shows_quotient (elapsed r LinearSearch) (elapsed r BinarySearch)
          (binary_vs_linear s)
      ∧ shows_quotient (elapsed r BinarySearch) (elapsed r DictionaryLookup)
          (dictionary_vs_binary s).
Proof.
  intros (_ & _ & Hb)%init_inv.
  destruct (compare_algorithms_run self h' tid c Hb) as (rb & _ & Hrun).
  eexists _, _. split; [exact Hrun|].
  repeat split; apply ratio_shows_quotient.
Qed.

Lemma speed_ratios_witness :
  ∃ r c',
    compare_algorithms sample_self sample_heap 1 scan_first_clock = Ok (r, c')
    ∧ let s := Comparison.speed_improvement (Comparison.performance_analysis r) in
      shows_quotient (elapsed r LinearSearch) (elapsed r DictionaryLookup)
        (dictionary_vs_linear s)
      ∧ shows_quotient (elapsed r LinearSearch) (elapsed r BinarySearch)
          (binary_vs_linear s)
      ∧ shows_quotient (elapsed r BinarySearch) (elapsed r DictionaryLookup)
          (dictionary_vs_binary s).
Proof.
  apply (speed_ratios sample_locs sample_heap sample_self sample_heap).
  exact sample_init.
Defined.

(** ** The benchmark on any state *)

(** The loop over the batch, on any state: when it returns, it has
    appended one report per identifier, in order, and has counted each
    strategy's own hits in that strategy's [success_rate]. *)
Lemma benchmark_loop_inv self h test_ids b c b' c' :
  for_each test_ids (λ test_id b,
    comparison ← compare_algorithms self h test_id;
    for_each all_algorithms (λ a b, mret (aggregate comparison a b))
      (append_result b comparison)) b c = Ok (b', c') →
  ∃ news,
    Benchmark.detailed_results b' = Benchmark.detailed_results b ++ news
    ∧ Comparison.transaction_id <$> news = test_ids
    ∧ ∀ a z, success_rate (Benchmark.algorithms b a) = PyInt z →
             success_rate (Benchmark.algorithms b' a) = PyInt (z + Z.of_nat (hits a news)).
Proof.
  revert b c. induction test_ids as [|test_id rest IH]; intros b c.
  - intros [= <- <-]. exists []. rewrite app_nil_r. repeat split.
    intros a z ->. f_equal. unfold hits. simpl. lia.
  - rewrite for_each_cons, bind_run, bind_run.
    destruct (compare_algorithms self h test_id c) as [[comparison c1]| |] eqn:Hcmp;
      [|done..].
    lazy beta iota. rewrite aggregate_run. intros Hloop.
    destruct (IH _ _ Hloop) as (news & Hres & Hids & Hrate).
    apply compare_algorithms_inv in Hcmp as (rl & rd & rb & Hreport).
    exists (comparison :: news). split; [|split].
    + rewrite Hres. simpl. by rewrite <- app_assoc.
    + csimpl. rewrite Hids. by rewrite Hreport.
    + intros a z Hz. rewrite hits_cons.
      pose proof (aggregated_rate comparison (append_result b comparison) a) as Hagg.
      change (Benchmark.algorithms (append_result b comparison) a)
        with (Benchmark.algorithms b a) in Hagg.
      rewrite Hz in Hagg.
      destruct (found (Comparison.algorithms comparison a)).
      * rewrite (Hrate a (z + 1) Hagg). f_equal; lia.
      * rewrite (Hrate a z Hagg). f_equal; lia.
Qed.

(** C3, amended. Aggregate correctness: for every batch of n >= 1
    identifiers, on the state index construction builds the benchmark
    returns, and on any state, whenever it returns, its report has one
    Comparison Report per identifier, in order, and each strategy's
    [success_rate] is the percentage (hits / n) * 100, computed in
    binary64, where hits is the number of Comparison Reports in which
    that strategy, and no other, found a record. *)
Theorem benchmark_success_rate self h test_ids c :
  test_ids ≠ [] →
  (∀ txs h0, __init__ txs h0 = Ok (self, h) →
             ∃ b c', benchmark_algorithms self h test_ids c = Ok (b, c'))
  ∧ ∀ b c',
      benchmark_algorithms self h test_ids c = Ok (b, c') →
      Comparison.transaction_id <$> Benchmark.detailed_results b = test_ids
      ∧ ∀ a, success_rate (Benchmark.algorithms b a)
             = PyFloat (PrimFloat.mul
                          (PrimFloat.div
                             (float_of_int (Z.of_nat (hits a (Benchmark.detailed_results b))))
                             (float_of_int (Z.of_nat (length test_ids))))
                          100).
Proof.
  intros Hne.
  assert (length test_ids ≠ 0%nat) as Hlen by by destruct test_ids.
  unfold benchmark_algorithms.
  set (b0 := {| Benchmark.test_cases := length test_ids |}). split.
  - intros txs h0 (_ & _ & Hb)%init_inv.
    destruct (benchmark_loop_run self h test_ids b0 c Hb) as (b1 & c1 & _ & Hloop & _).
    destruct (averages_run (length test_ids) b1 c1 Hlen) as (b2 & Havg & _).
    exists b2, c1. by rewrite bind_run, Hloop.
  - intros b c'. rewrite bind_run.
    destruct (for_each test_ids _ b0 c) as [[b1 c1]| |] eqn:Hloop; [|done..].
    apply benchmark_loop_inv in Hloop as (news & Hres & Hids & Hrate).
    destruct (averages_run (length test_ids) b1 c1 Hlen) as (b2 & Havg & Hres2 & Hrate2).
    rewrite Havg. intros [= <- <-].
    rewrite Hres2, Hres. split; [done|].
    intros a. rewrite Hrate2, (Hrate a 0 eq_refl). simpl. done.
Qed.

Lemma benchmark_success_rate_witness :
  (∀ txs h0, __init__ txs h0 = Ok (sample_self, sample_heap) →
             ∃ b c', benchmark_algorithms sample_self sample_heap [1; 2; 3] ticking
                     = Ok (b, c'))
  ∧ ∀ b c',
      benchmark_algorithms sample_self sample_heap [1; 2; 3] ticking = Ok (b, c') →
      Comparison.transaction_id <$> Benchmark.detailed_results b = [1; 2; 3]
      ∧ ∀ a, success_rate (Benchmark.algorithms b a)
             = PyFloat (PrimFloat.mul
                          (PrimFloat.div
                             (float_of_int (Z.of_nat (hits a (Benchmark.detailed_results b))))
                             (float_of_int (Z.of_nat (length [1; 2; 3]))))
                          100).
Proof.
  apply (benchmark_success_rate sample_self sample_heap [1; 2; 3] ticking).
  discriminate.
Defined.

(** The rates are kept per strategy: on a state whose dictionary has
    fallen behind its list (here it is empty), the batch of the one
    identifier 1 gives the scan and the bisection the rate 100.0 and the
    keyed lookup the rate 0.0. *)
Example benchmark_rates_are_per_strategy :
  match benchmark_algorithms stale_self sample_heap [1] ticking with
  | Ok (b, _) =>
      success_rate (Benchmark.algorithms b LinearSearch) = PyFloat 100
      ∧ success_rate (Benchmark.algorithms b DictionaryLookup) = PyFloat 0
      ∧ success_rate (Benchmark.algorithms b BinarySearch) = PyFloat 100
  | _ => False
  end.
Proof. vm_compute. repeat split. Qed.

(** ** The scenarios of the specification, on the sample data *)

(** [compare(2)] on the store of identifiers 1, 2, 3: all three strategies
    find the record with identifier 2. *)
Example compare_present :
  match compare_algorithms sample_self sample_heap 2 ticking with
  | Ok (r, _) => found_ids sample_heap r = [Some 2; Some 2; Some 2]
  | _ => False
  end.
Proof. vm_compute. reflexivity. Qed.

(** [compare(99)]: no strategy finds a record. *)
Example compare_absent :
  match compare_algorithms sample_self sample_heap 99 ticking with
  | Ok (r, _) =>
      (λ a, found (Comparison.algorithms r a)) <$> all_algorithms = [false; false; false]
  | _ => False
  end.
Proof. vm_compute. reflexivity. Qed.

(** [benchmark([1, 2, 3])]: every strategy's success rate is 100. *)
Example benchmark_all_present :
  match benchmark_algorithms sample_self sample_heap [1; 2; 3] ticking with
  | Ok (b, _) =>
      (λ a, success_rate (Benchmark.algorithms b a)) <$> all_algorithms
      = [PyFloat 100; PyFloat 100; PyFloat 100]
  | _ => False
  end.
Proof. vm_compute. reflexivity. Qed.

(** * Further properties of the search engine *)

(** ** First match, last match *)

(** On the state index construction builds from any list of records,
    identifiers shared or not, the scan returns the first record of the
    list that carries the queried identifier, the keyed lookup the last
    one, and the bisection one of them; so the three agree on found or
    absent, whatever record each returns. *)
Theorem first_last_and_some txs h self h' tid c1 c2 c3 :
  __init__ txs h = Ok (self, h') →
  let matches := filter (λ l, tx_id (h' l) = Some tid) txs in
  ∃ rb e1 e2 e3 c1' c2' c3',
    linear_search self h' tid c1 = Ok ((head matches, e1), c1')
    ∧ dictionary_lookup self h' tid c2 = Ok ((last matches, e2), c2')
    ∧ binary_search self h' tid c3 = Ok ((rb, e3), c3')
    ∧ match rb with
      | Some l => l ∈ matches
      | None => matches = []
      end.
Proof.
  intros (_ & Htx & Hb)%init_inv matches. subst matches. rewrite <- Htx.
  destruct (binary_search_run self h' tid c3 Hb) as (rb & Hrun & Hans).
  exists rb. eexists _, _, _, _, _, _.
  split; [apply linear_search_run|].
  split; [by rewrite dictionary_lookup_run, (built_dict _ _ Hb)|].
  split; [exact Hrun|].
  destruct rb as [l|]; simpl in Hans.
  - destruct Hans as [Hl Hid]. apply list_elem_of_filter. split; [done|].
    by rewrite <- (built_perm _ _ Hb).
  - destruct (filter _ _) as [|x F] eqn:HF; [done|]. exfalso.
    assert (x ∈ x :: F) as Hx by left. rewrite <- HF in Hx.
    apply list_elem_of_filter in Hx as [Hid Hin].
    apply (Hans x); [|done]. by rewrite (built_perm _ _ Hb).
Qed.

Lemma twins_init :
  __init__ (addresses twins) (heap_of twins) = Ok (twins_self, heap_of twins).
Proof. vm_compute. reflexivity. Qed.

Lemma first_last_and_some_witness :
  let matches := filter (λ l, tx_id (heap_of twins l) = Some 1) (addresses twins) in
  ∃ rb e1 e2 e3 c1' c2' c3',
    linear_search twins_self (heap_of twins) 1 ticking = Ok ((head matches, e1), c1')
    ∧ dictionary_lookup twins_self (heap_of twins) 1 ticking = Ok ((last matches, e2), c2')
    ∧ binary_search twins_self (heap_of twins) 1 ticking = Ok ((rb, e3), c3')
    ∧ match rb with
      | Some l => l ∈ matches
      | None => matches = []
      end.
Proof.
  apply (first_last_and_some (addresses twins) (heap_of twins) twins_self
           (heap_of twins) 1).
  exact twins_init.
Defined.

(** ** The cost of the bisection *)

(** A bisection over fewer than [2 ^ fuel] indices does not run out of
    fuel: every iteration at least halves the range. *)
Lemma binary_search_loop_halves fuel self h tid start left right c :
  right - left + 1 < 2 ^ Z.of_nat fuel →
  binary_search_loop fuel self h tid start left right c ≠ Timeout.
Proof.
  revert left right. induction fuel as [|fuel IH]; intros left right Hsize.
  - simpl in *. by destruct (Z.leb_spec left right); [lia|].
  - rewrite Nat2Z.inj_succ, Z.pow_succ_r in Hsize by lia.
    simpl. destruct (Z.leb_spec left right) as [Hle|Hgt]; [|done].
    pose proof (Z.div_mod (left + right) 2 ltac:(lia)) as Hdiv.
    pose proof (Z.mod_pos_bound (left + right) 2 ltac:(lia)) as Hmod.
    rewrite bind_run.
    destruct (getitem (sorted_transactions self) _) as [t| |] eqn:Hget; simpl; [|done|].
    + rewrite bind_run.
      destruct (getitem_id (h t)) as [k| |] eqn:Hk; simpl; [|done|].
      * destruct (k =? tid); [done|]. destruct (k <? tid); apply IH; lia.
      * unfold getitem_id in Hk. by destruct (tx_id (h t)).
    + unfold getitem in Hget. repeat case_match; done.
Qed.

(** More fuel than enough changes nothing. *)
Lemma binary_search_loop_fuel_irrelevant f1 f2 self h tid start left right c :
  binary_search_loop f1 self h tid start left right c ≠ Timeout →
  binary_search_loop f2 self h tid start left right c ≠ Timeout →
  binary_search_loop f1 self h tid start left right c
  = binary_search_loop f2 self h tid start left right c.
Proof.
  revert f2 left right. induction f1 as [|f1 IH]; intros [|f2] left right; simpl;
    destruct (left <=? right); try done.
  rewrite !bind_run.
  destruct (getitem (sorted_transactions self) _) as [t| |]; simpl; [|done..].
  rewrite !bind_run. destruct (getitem_id (h t)) as [k| |]; simpl; [|done..].
  destruct (k =? tid); [done|]. destruct (k <? tid); apply IH.
Qed.

(** [binary_search] is logarithmic: on every state, over [n] records in
    the sorted sequence, its loop body runs at most as many times as
    [n] has binary digits (once for [n = 0]); with that many iterations
    allowed it gives the result it gives with [n]. *)
Theorem binary_search_logarithmic self h tid c :
  let n := length (sorted_transactions self) in
  binary_search_loop (log_fuel n) self h tid (c 0%nat) 0 (Z.of_nat n - 1) (λ i, c (S i))
  ≠ Timeout
  ∧ binary_search self h tid c
    = binary_search_loop (log_fuel n) self h tid (c 0%nat) 0 (Z.of_nat n - 1)
        (λ i, c (S i)).
Proof.
  intros n.
  assert (binary_search_loop (log_fuel n) self h tid (c 0%nat) 0 (Z.of_nat n - 1)
            (λ i, c (S i)) ≠ Timeout) as Hlog.
  { apply binary_search_loop_halves. unfold log_fuel.
    rewrite Nat2Z.inj_succ, Z2Nat.id by apply Z.log2_nonneg.
    destruct (decide (n = 0%nat)) as [->|Hn]; [done|].
    pose proof (Z.log2_spec (Z.of_nat n) ltac:(lia)). lia. }
  split; [done|].
  change (binary_search self h tid c)
    with (binary_search_loop n self h tid (c 0%nat) 0 (Z.of_nat n - 1) (λ i, c (S i))).
  apply binary_search_loop_fuel_irrelevant; [|done].
  apply binary_search_loop_fuel. lia.
Qed.


(** ** Answers do not depend on the clock *)

Lemma binary_search_loop_answer fuel self h tid left right s1 s2 c1 c2 :
  answer_of (binary_search_loop fuel self h tid s1 left right c1)
  = answer_of (binary_search_loop fuel self h tid s2 left right c2).
Proof.
  revert left right. induction fuel as [|fuel IH]; intros left right; simpl;
    destruct (left <=? right); try done.
  rewrite !bind_run.
  destruct (getitem (sorted_transactions self) _) as [t| |]; simpl; [|done..].
  rewrite !bind_run. destruct (getitem_id (h t)) as [k| |]; simpl; [|done..].
  destruct (k =? tid); [done|]. destruct (k <? tid); apply IH.
Qed.

Lemma binary_search_answer self h tid c1 c2 :
  answer_of (binary_search self h tid c1) = answer_of (binary_search self h tid c2).
Proof. unfold binary_search. rewrite !bind_run. simpl. apply binary_search_loop_answer. Qed.

(** Repeating a comparison on an unchanged state gives the same answers:
    whatever the clock reads, if [compare_algorithms] returns a report
    for an identifier, it returns one under any other clock as well, with
    the same found flag and the same record for each strategy; only
    elapsed times and what derives from them may differ. *)
Theorem compare_answers_ignore_clock self h tid c1 c2 r1 c1' :
  compare_algorithms self h tid c1 = Ok (r1, c1') →
  ∃ r2 c2',
    compare_algorithms self h tid c2 = Ok (r2, c2')
    ∧ Comparison.transaction_id r2 = Comparison.transaction_id r1
    ∧ Comparison.dataset_size (Comparison.performance_analysis r2)
      = Comparison.dataset_size (Comparison.performance_analysis r1)
    ∧ ∀ a, result (Comparison.algorithms r2 a) = result (Comparison.algorithms r1 a)
           ∧ found (Comparison.algorithms r2 a) = found (Comparison.algorithms r1 a).
Proof.
  unfold compare_algorithms.
  rewrite !bind_run, !linear_search_run, !bind_run, !dictionary_lookup_run, !bind_run.
  pose proof (binary_search_answer self h tid
                (λ n, c1 (S (S (S (S n))))) (λ n, c2 (S (S (S (S n)))))) as Hans.
  destruct (binary_search self h tid (λ n, c1 _)) as [[[rb eb] c3]| |]; [|done..].
  destruct (binary_search self h tid (λ n, c2 _)) as [[[rb' eb'] c3']| |]; [|done..].
  simpl in Hans. injection Hans as ->.
  rewrite !bind_run, !speed_ratio_run, !bind_run, !speed_ratio_run,
    !bind_run, !speed_ratio_run.
  intros [= <- <-]. eexists _, _. split; [reflexivity|].
  split; [done|]. split; [done|]. by intros [].
Qed.

Lemma compare_answers_ignore_clock_witness :
  ∃ r2 c2',
    compare_algorithms sample_self sample_heap 2 ticking = Ok (r2, c2')
    ∧ Comparison.transaction_id r2 = Comparison.transaction_id tie_report
    ∧ Comparison.dataset_size (Comparison.performance_analysis r2)
      = Comparison.dataset_size (Comparison.performance_analysis tie_report)
    ∧ ∀ a, result (Comparison.algorithms r2 a) = result (Comparison.algorithms tie_report a)
           ∧ found (Comparison.algorithms r2 a) = found (Comparison.algorithms tie_report a).
Proof.
  apply (compare_answers_ignore_clock sample_self sample_heap 2 frozen_clock ticking
           tie_report frozen_clock).
  vm_compute. reflexivity.
Defined.

(** ** The benchmark, report by report *)

Lemma after_comparisons_succ i c :
  after_comparisons (S i) c = after_comparisons i (λ n, c (6 + n)%nat).
Proof. unfold after_comparisons. by rewrite Nat.iter_succ_r. Qed.

Lemma aggregated_times comparison b a :
  total_time (Benchmark.algorithms (aggregated comparison b) a)
  = add (total_time (Benchmark.algorithms b a)) (PyFloat (elapsed comparison a))
  ∧ avg_time (Benchmark.algorithms (aggregated comparison b) a)
    = avg_time (Benchmark.algorithms b a).
Proof.
  destruct a; unfold aggregated, aggregate, set_stats, elapsed; simpl;
    by destruct (found _).
Qed.

(** The loop over the batch, in full: what it appends are the reports of
    [compare_algorithms] at the successive states of the clock, and it
    adds their elapsed times to the totals. *)
Lemma benchmark_loop_reports self h test_ids b c :
  built h self →
  ∃ b' c' news,
    for_each test_ids (λ test_id b,
      comparison ← compare_algorithms self h test_id;
      for_each all_algorithms (λ a b, mret (aggregate comparison a b))
        (append_result b comparison)) b c = Ok (b', c')
    ∧ Benchmark.test_cases b' = Benchmark.test_cases b
    ∧ Benchmark.dataset_size b' = Benchmark.dataset_size b
    ∧ Benchmark.detailed_results b' = Benchmark.detailed_results b ++ news
    ∧ length news = length test_ids
    ∧ (∀ i tid, test_ids !! i = Some tid →
         ∃ r c'', compare_algorithms self h tid (after_comparisons i c) = Ok (r, c'')
                  ∧ news !! i = Some r)
    ∧ ∀ a, total_time (Benchmark.algorithms b' a)
           = foldl (λ acc r, add acc (PyFloat (elapsed r a)))
               (total_time (Benchmark.algorithms b a)) news.
Proof.
  intros Hb. revert b c. induction test_ids as [|test_id rest IH]; intros b c.
  - exists b, c, []. simpl. rewrite app_nil_r. repeat split; done.
  - destruct (compare_algorithms_run self h test_id c Hb) as (rb & _ & Hrun).
    set (comparison := report _ _ _ _ _ _ _ _) in Hrun.
    destruct (IH (aggregated comparison (append_result b comparison)) (λ n, c (6 + n)%nat))
      as (b' & c' & news & Hloop & Hcases & Hsize & Hres & Hlen & Hreports & Htotal).
    exists b', c', (comparison :: news).
    split; [|split; [|split; [|split; [|split; [|split]]]]].
    + rewrite for_each_cons, bind_run, bind_run, Hrun. lazy beta iota.
      rewrite aggregate_run. exact Hloop.
    + by rewrite Hcases.
    + by rewrite Hsize.
    + rewrite Hres. simpl. by rewrite <- app_assoc.
    + simpl. by rewrite Hlen.
    + intros [|i] tid Hi; simpl in Hi.
      * simplify_eq. by exists comparison, (λ n, c (6 + n)%nat).
      * rewrite after_comparisons_succ. by apply Hreports.
    + intros a. rewrite Htotal. simpl. f_equal.
      apply (aggregated_times comparison (append_result b comparison) a).
Qed.

Lemma averages_stats n b c :
  n ≠ 0%nat →
  ∃ b', for_each all_algorithms (average n) b c = Ok (b', c)
        ∧ Benchmark.test_cases b' = Benchmark.test_cases b
        ∧ Benchmark.dataset_size b' = Benchmark.dataset_size b
        ∧ Benchmark.detailed_results b' = Benchmark.detailed_results b
        ∧ ∀ a, total_time (Benchmark.algorithms b' a)
               = total_time (Benchmark.algorithms b a)
               ∧ avg_time (Benchmark.algorithms b' a)
                 = PyFloat (PrimFloat.div
                              (to_float (total_time (Benchmark.algorithms b a)))
                              (float_of_int (Z.of_nat n))).
Proof.
  intros Hn. eexists. split; [|split; [|split; [|split]]].
  - unfold all_algorithms, for_each.
    rewrite bind_run, average_run by done. simpl.
    rewrite bind_run, average_run by done. simpl.
    rewrite bind_run, average_run by done. simpl.
    reflexivity.
  - reflexivity.
  - reflexivity.
  - reflexivity.
  - by intros [].
Qed.

(** [benchmark_algorithms] on a built state and a non-empty batch. *)
Lemma benchmark_algorithms_run self h test_ids c :
  built h self → test_ids ≠ [] →
  ∃ b c',
    benchmark_algorithms self h test_ids c = Ok (b, c')
    ∧ Benchmark.test_cases b = length test_ids
    ∧ Benchmark.dataset_size b = length (transactions self)
    ∧ length (Benchmark.detailed_results b) = length test_ids
    ∧ (∀ i tid, test_ids !! i = Some tid →
         ∃ r c'', compare_algorithms self h tid (after_comparisons i c) = Ok (r, c'')
                  ∧ Benchmark.detailed_results b !! i = Some r)
    ∧ ∀ a, total_time (Benchmark.algorithms b a)
           = total_elapsed a (Benchmark.detailed_results b)
           ∧ avg_time (Benchmark.algorithms b a)
             = PyFloat (PrimFloat.div
                          (to_float (total_elapsed a (Benchmark.detailed_results b)))
                          (float_of_int (Z.of_nat (length test_ids)))).
Proof.
  intros Hb Hne. unfold benchmark_algorithms.
  set (b0 := {| Benchmark.test_cases := length test_ids |}).
  destruct (benchmark_loop_reports self h test_ids b0 c Hb)
    as (b1 & c1 & news & Hloop & Hcases & Hsize & Hres & Hlen & Hreports & Htotal).
  destruct (averages_stats (length test_ids) b1 c1)
    as (b2 & Havg & Hcases2 & Hsize2 & Hres2 & Hstats).
  { by destruct test_ids. }
  exists b2, c1. rewrite bind_run, Hloop.
  split; [done|]. rewrite Hcases2, Hsize2, Hres2, Hcases, Hsize, Hres. simpl.
  split; [done|]. split; [done|]. split; [done|]. split; [done|].
  intros a. destruct (Hstats a) as [-> ->]. by rewrite Htotal.
Qed.

(** Benchmark and comparison compose: on the state index construction
    builds, for a non-empty batch, the benchmark reports the batch size
    and the size of the store, and its [i]-th detailed result is the
    report [compare_algorithms] returns for the [i]-th identifier of the
    batch when the clock has been read by [i] comparisons before. *)
Theorem benchmark_details_are_comparisons txs h self h' test_ids c :
  __init__ txs h = Ok (self, h') →
  test_ids ≠ [] →
  ∃ b c',
    benchmark_algorithms self h' test_ids c = Ok (b, c')
    ∧ Benchmark.test_cases b = length test_ids
    ∧ Benchmark.dataset_size b = length txs
    ∧ length (Benchmark.detailed_results b) = length test_ids
    ∧ ∀ i tid, test_ids !! i = Some tid →
        ∃ r c'', compare_algorithms self h' tid (after_comparisons i c) = Ok (r, c'')
                 ∧ Benchmark.detailed_results b !! i = Some r.
Proof.
  intros (_ & Htx & Hb)%init_inv Hne.
  destruct (benchmark_algorithms_run self h' test_ids c Hb Hne)
    as (b & c' & Hrun & ? & ? & ? & ? & _).
  exists b, c'. by rewrite <- Htx.
Qed.

Lemma benchmark_details_are_comparisons_witness :
  ∃ b c',
    benchmark_algorithms sample_self sample_heap [3; 99] ticking = Ok (b, c')
    ∧ Benchmark.test_cases b = length [3; 99]
    ∧ Benchmark.dataset_size b = length sample_locs
    ∧ length (Benchmark.detailed_results b) = length [3; 99]
    ∧ ∀ i tid, [3; 99] !! i = Some tid →
        ∃ r c'', compare_algorithms sample_self sample_heap tid (after_comparisons i ticking)
                 = Ok (r, c'')
                 ∧ Benchmark.detailed_results b !! i = Some r.
Proof.
  apply (benchmark_details_are_comparisons sample_locs sample_heap sample_self sample_heap).
  - exact sample_init.
  - discriminate.
Defined.

(** Totals and averages: on the state index construction builds, for a
    batch of n >= 1 identifiers, each strategy's [total_time] is the sum
    of its elapsed times over the detailed results, added left to right
    from 0 in binary64, and its [avg_time] is that total divided by n. *)
Theorem benchmark_totals_and_averages txs h self h' test_ids c :
  __init__ txs h = Ok (self, h') →
  test_ids ≠ [] →
  ∃ b c',
    benchmark_algorithms self h' test_ids c = Ok (b, c')
    ∧ ∀ a, total_time (Benchmark.algorithms b a)
           = total_elapsed a (Benchmark.detailed_results b)
           ∧ avg_time (Benchmark.algorithms b a)
             = PyFloat (PrimFloat.div
                          (to_float (total_elapsed a (Benchmark.detailed_results b)))
                          (float_of_int (Z.of_nat (length test_ids)))).
Proof.
  intros (_ & _ & Hb)%init_inv Hne.
  destruct (benchmark_algorithms_run self h' test_ids c Hb Hne)
    as (b & c' & Hrun & _ & _ & _ & _ & Hstats).
  by exists b, c'.
Qed.

Lemma benchmark_totals_and_averages_witness :
  ∃ b c',
    benchmark_algorithms sample_self sample_heap [3; 99] ticking = Ok (b, c')
    ∧ ∀ a, total_time (Benchmark.algorithms b a)
           = total_elapsed a (Benchmark.detailed_results b)
           ∧ avg_time (Benchmark.algorithms b a)
             = PyFloat (PrimFloat.div
                          (to_float (total_elapsed a (Benchmark.detailed_results b)))
                          (float_of_int (Z.of_nat (length [3; 99])))).
Proof.
  apply (benchmark_totals_and_averages sample_locs sample_heap sample_self sample_heap).
  - exact sample_init.
  - discriminate.
Defined.

(** ** Rebuilding the indices *)

Lemma assign_ids_noop i txs h : all_have_ids h txs → assign_ids i txs h = h.
Proof.
  revert i. induction txs as [|t rest IH]; intros i Hall; simpl; [done|].
  destruct (Hall t) as [k Hk]; [by left|]. rewrite Hk.
  apply IH. intros l Hl. apply Hall. by right.
Qed.

(** Index construction is idempotent: preparing the structures again on
    the state and the records it built, or building a new object from the
    same list, assigns no identifier and gives the same dictionary and
    the same sorted sequence. *)
Theorem rebuild_is_identity txs h self h' :
  __init__ txs h = Ok (self, h') →
  _prepare_data_structures self h' = Ok (self, h')
  ∧ __init__ txs h' = Ok (self, h').
Proof.
  intros Hinit. pose proof Hinit as (-> & Htx & Hb)%init_inv.
  assert (assign_ids 0 txs (assign_ids 0 txs h) = assign_ids 0 txs h) as Hnoop.
  { apply assign_ids_noop, assign_ids_all. }
  unfold __init__, _prepare_data_structures in *. simpl in *.
  rewrite Htx, Hnoop.
  destruct (dict_by_id _ txs ∅) as [d| |]; [|done..]. simpl in *.
  destruct (sorted _ txs) as [s| |]; [|done..]. simpl in *.
  by injection Hinit as <-.
Qed.

Lemma rebuild_is_identity_witness :
  _prepare_data_structures sample_self sample_heap = Ok (sample_self, sample_heap)
  ∧ __init__ sample_locs sample_heap = Ok (sample_self, sample_heap).
Proof.
  apply (rebuild_is_identity sample_locs sample_heap sample_self sample_heap).
  exact sample_init.
Defined.

(** Assigned identifiers are not checked against carried ones: when the
    record first met at (0-based) position [j] has no identifier and
    another record of the list carries identifier [j + 1], index
    construction leaves the two with the same identifier. *)
Theorem assigned_identifier_collides txs h i j a b :
  txs !! i = Some a → tx_id (h a) = Some (Z.of_nat j + 1) →
  txs !! j = Some b → tx_id (h b) = None →
  (∀ j', (j' < j)%nat → txs !! j' ≠ Some b) →
  ∃ self h',
    __init__ txs h = Ok (self, h')
    ∧ a ≠ b
    ∧ tx_id (h' a) = tx_id (h' b)
    ∧ ¬ unique_ids h' txs.
Proof.
  intros Hi Ha Hj Hb Hfirst.
  destruct (init_built txs h) as (self & Hinit & _).
  exists self, (assign_ids 0 txs h).
  assert (a ≠ b) as Hne by congruence.
  assert (tx_id (assign_ids 0 txs h a) = tx_id (assign_ids 0 txs h b)) as Heq.
  { rewrite (assign_ids_keep _ _ _ _ _ Ha), Ha.
    by rewrite (assign_ids_first 0 txs h b j). }
  split; [done|]. split; [done|]. split; [done|].
  intros Hu. apply Hne.
  apply (unique_ids_spec (assign_ids 0 txs h) txs);
    [done|by eapply list_elem_of_lookup_2..|done].
Qed.

Lemma assigned_identifier_collides_witness :
  ∃ self h',
    __init__ (addresses second_unnumbered) (heap_of second_unnumbered) = Ok (self, h')
    ∧ 0%nat ≠ 1%nat
    ∧ tx_id (h' 0%nat) = tx_id (h' 1%nat)
    ∧ ¬ unique_ids h' (addresses second_unnumbered).
Proof.
  apply (assigned_identifier_collides (addresses second_unnumbered)
           (heap_of second_unnumbered) 0 1 0%nat 1%nat).
  - reflexivity.
  - reflexivity.
  - reflexivity.
  - reflexivity.
  - intros j' Hj'. destruct j' as [|j']; [discriminate|lia].
Defined.

(** ** The demonstration *)

(** The computation of [main], on records whose identifiers, where
    present, are integers: when the file is missing, is no JSON, or
    holds a list of records, index construction, the comparison for
    identifier 1 and the benchmark all return, whatever the clock reads.
    [main] then never runs on an empty store, and its batch is never
    empty: three identifiers, six when the file holds a hundred records
    or more. Any other exception of reading the file escapes [main]. *)
Theorem main_returns file c :
  match file with
  | Demo.OtherError e => Demo.main file c = Raise e
  | _ =>
      ∃ comparison benchmark c',
        Demo.main file c = Ok ((comparison, benchmark), c')
        ∧ Comparison.transaction_id comparison = 1
        ∧ (1 ≤ Comparison.dataset_size (Comparison.performance_analysis comparison))%nat
        ∧ Benchmark.dataset_size benchmark
          = Comparison.dataset_size (Comparison.performance_analysis comparison)
        ∧ Benchmark.test_cases benchmark
          = if decide (100 ≤ Benchmark.dataset_size benchmark)%nat then 6%nat else 3%nat
  end.
Proof.
  assert (∀ read,
    Demo.load_transactions_from_file file = Ok read →
    ∃ comparison benchmark c',
      Demo.main file c = Ok ((comparison, benchmark), c')
      ∧ Comparison.transaction_id comparison = 1
      ∧ (1 ≤ Comparison.dataset_size (Comparison.performance_analysis comparison))%nat
      ∧ Benchmark.dataset_size benchmark
        = Comparison.dataset_size (Comparison.performance_analysis comparison)
      ∧ Benchmark.test_cases benchmark
        = if decide (100 ≤ Benchmark.dataset_size benchmark)%nat then 6%nat else 3%nat)
    as Hmain.
  { intros read Hread. unfold Demo.main. rewrite bind_run. unfold lift.
    rewrite Hread. lazy beta iota.
    set (data := match read with
                 | [] => create_sample_data
                 | _ => read
                 end).
    assert (1 ≤ length data)%nat as Hdata.
    { subst data. destruct read; simpl; lia. }
    destruct (init_built (addresses data) (heap_of data)) as (self & Hinit & Htx & Hb).
    rewrite bind_run. unfold lift. rewrite Hinit. lazy beta iota.
    destruct (compare_algorithms_run self _ 1 c Hb) as (rb & _ & Hrun).
    rewrite bind_run, Hrun.
    assert (length (transactions self) = length data) as Hlen.
    { rewrite Htx. unfold addresses. by rewrite length_seq. }
    set (test_ids := if 100 <=? Z.of_nat (length data) then _ else _).
    assert (test_ids ≠ []) as Hne.
    { subst test_ids. by destruct (100 <=? _). }
    destruct (benchmark_algorithms_run self _ test_ids (λ n, c (6 + n)%nat) Hb Hne)
      as (b & c' & Hbench & Hcases & Hsize & _).
    rewrite bind_run, Hbench. eexists _, _, _. split; [reflexivity|].
    simpl. rewrite Hsize, Hcases, Hlen.
    split; [done|]. split; [done|]. split; [done|].
    subst test_ids. destruct (Z.leb_spec 100 (Z.of_nat (length data)));
      case_decide; try lia; done. }
  destruct file as [data| | |e]; [by eapply Hmain..|]. reflexivity.
Qed.

(** * Further properties of the API store *)

(** ** What the handlers do to the store *)

Lemma truthy_id t k : tx_id t = Some k → truthy t = true.
Proof. unfold truthy. by intros ->. Qed.

Lemma has_required_fields_forallb t :
  forallb (λ field, bool_decide (is_Some (tx_fields t !! field))) Api.required_fields = true
  ↔ has_required_fields t.
Proof.
  unfold has_required_fields. rewrite forallb_forall. split.
  - intros H field Hin. eapply bool_decide_eq_true_1. by apply H, list_elem_of_In.
  - intros H field Hin. apply bool_decide_eq_true_2. by apply H, list_elem_of_In.
Qed.

(** The outcomes of [do_POST]. *)
Lemma do_POST_inv self req c code self' c' :
  Api.do_POST self req c = Ok ((code, self'), c') →
  (code ≠ 201 ∧ self' = self)
  ∨ (code = 201 ∧ Api.authenticated req = true ∧ Api.path req = Api.Transactions
     ∧ ∃ t, Api.body req = Api.JsonObject t ∧ has_required_fields t
            ∧ self' = {| Api.transactions :=
                           Api.transactions self ++ [created self t (c 0%nat)];
                         Api.transactions_dict :=
                           <[Z.of_nat (length (Api.transactions self)) + 1
                             := created self t (c 0%nat)]> (Api.transactions_dict self) |}).
Proof.
  unfold Api.do_POST.
  destruct (Api.authenticated req); cbn [negb]; [|intros [= <- <- <-]; by left].
  destruct (Api.path req); try (intros [= <- <- <-]; by left).
  destruct (Api.body req) as [t|[]| |]; try (intros [= <- <- <-]; by left).
  destruct (forallb _ Api.required_fields) eqn:Hreq; [|intros [= <- <- <-]; by left].
  intros [= <- <- <-]. right. repeat split; try done.
  exists t. by rewrite <- has_required_fields_forallb.
Qed.

Lemma do_PUT_accepted self k t t0 c :
  k ≠ 0 → Api.transactions_dict self !! k = Some t0 → truthy t0 = true →
  Api.do_PUT self (update_request k t) c
  = Ok ((200, {| Api.transactions :=
                   Api.replace_first k (updated k t (c 2%nat)) (Api.transactions self);
                 Api.transactions_dict :=
                   <[k := updated k t (c 2%nat)]> (Api.transactions_dict self) |}),
        λ n, c (S (S (S n)))).
Proof.
  intros Hk Hlook Ht. unfold Api.do_PUT. simpl.
  destruct (Z.eqb_spec k 0); [done|].
  rewrite bind_run. unfold Api.dictionary_lookup. simpl.
  rewrite Hlook. simpl. by rewrite Ht.
Qed.

(** The outcomes of [do_PUT]. *)
Lemma do_PUT_inv self req c code self' c' :
  Api.do_PUT self req c = Ok ((code, self'), c') →
  (code ≠ 200 ∧ self' = self)
  ∨ (code = 200 ∧ Api.authenticated req = true
     ∧ ∃ k t t0, Api.path req = Api.Transaction k ∧ k ≠ 0
        ∧ Api.body req = Api.JsonObject t
        ∧ Api.transactions_dict self !! k = Some t0 ∧ truthy t0 = true
        ∧ self' = {| Api.transactions :=
                       Api.replace_first k (updated k t (c 2%nat)) (Api.transactions self);
                     Api.transactions_dict :=
                       <[k := updated k t (c 2%nat)]> (Api.transactions_dict self) |}).
Proof.
  unfold Api.do_PUT.
  destruct (Api.authenticated req); simpl; [|intros [= <- <- <-]; by left].
  destruct (Api.path req) as [|k|]; try (intros [= <- <- <-]; by left).
  destruct (Z.eqb_spec k 0); [intros [= <- <- <-]; by left|].
  rewrite bind_run. unfold Api.dictionary_lookup. simpl.
  destruct (Api.transactions_dict self !! k) as [t0|] eqn:Hlook; simpl;
    [|intros [= <- <- <-]; by left].
  destruct (truthy t0) eqn:Ht; simpl; [|intros [= <- <- <-]; by left].
  destruct (Api.body req) as [t|missing| |]; try (intros [= <- <- <-]; by left).
  intros [= <- <- <-]. right. repeat split; try done. by exists k, t, t0.
Qed.

(** The outcomes of [do_DELETE]. *)
Lemma do_DELETE_inv self req c code self' c' :
  Api.do_DELETE self req c = Ok ((code, self'), c') →
  (code ≠ 200 ∧ self' = self)
  ∨ (code = 200 ∧ Api.authenticated req = true
     ∧ ∃ k t0, Api.path req = Api.Transaction k ∧ k ≠ 0
        ∧ Api.transactions_dict self !! k = Some t0 ∧ truthy t0 = true
        ∧ self' = {| Api.transactions :=
                       List.filter (λ t, negb (get_id_eq t k)) (Api.transactions self);
                     Api.transactions_dict := delete k (Api.transactions_dict self) |}).
Proof.
  unfold Api.do_DELETE.
  destruct (Api.authenticated req); simpl; [|intros [= <- <- <-]; by left].
  destruct (Api.path req) as [|k|]; try (intros [= <- <- <-]; by left).
  destruct (Z.eqb_spec k 0); [intros [= <- <- <-]; by left|].
  rewrite bind_run. unfold Api.dictionary_lookup. simpl.
  destruct (Api.transactions_dict self !! k) as [t0|] eqn:Hlook; simpl;
    [|intros [= <- <- <-]; by left].
  destruct (truthy t0) eqn:Ht; simpl; [|intros [= <- <- <-]; by left].
  intros [= <- <- <-]. right. repeat split; try done. by exists k, t0.
Qed.

(** When a request is accepted: a creation is answered 201 exactly when
    the request is authenticated, addresses the collection and its body
    parses to an object with the three required fields; an update is
    answered 200 exactly when the request is authenticated, addresses a
    non-zero identifier that the dictionary holds, and its body parses
    to an object;
    a deletion is answered 200 under the same conditions less the body.
    The list is not consulted. *)
Theorem accepted_exactly_when self req c :
  ((∃ self' c', Api.do_POST self req c = Ok ((201, self'), c'))
   ↔ Api.authenticated req = true ∧ Api.path req = Api.Transactions
     ∧ ∃ t, Api.body req = Api.JsonObject t ∧ has_required_fields t)
  ∧ ((∃ self' c', Api.do_PUT self req c = Ok ((200, self'), c'))
     ↔ Api.authenticated req = true
       ∧ ∃ k t0, Api.path req = Api.Transaction k ∧ k ≠ 0
           ∧ Api.transactions_dict self !! k = Some t0 ∧ truthy t0 = true
           ∧ ∃ t, Api.body req = Api.JsonObject t)
  ∧ ((∃ self' c', Api.do_DELETE self req c = Ok ((200, self'), c'))
     ↔ Api.authenticated req = true
       ∧ ∃ k t0, Api.path req = Api.Transaction k ∧ k ≠ 0
           ∧ Api.transactions_dict self !! k = Some t0 ∧ truthy t0 = true).
Proof.
  split; [|split]; split.
  - intros (self' & c' & [[Hne _]|(_ & Ha & Hp & t & Hb & Hr & _)]%do_POST_inv);
      [done|]. split; [done|]. split; [done|]. by exists t.
  - intros (Ha & Hp & t & Hb & Hr). destruct req as [a p b]. simpl in *. subst.
    do 2 eexists. apply (do_POST_accepted self t c).
    by apply has_required_fields_forallb.
  - intros (self' & c' &
            [[Hne _]|(_ & Ha & k & t & t0 & Hp & Hk & Hb & Hl & Ht & _)]%do_PUT_inv);
      [done|]. split; [done|]. exists k, t0. repeat split; try done. by exists t.
  - intros (Ha & k & t0 & Hp & Hk & Hl & Ht & [t Hb]).
    destruct req as [a p b]. simpl in *. subst.
    do 2 eexists. by apply (do_PUT_accepted self k t t0 c).
  - intros (self' & c' &
            [[Hne _]|(_ & Ha & k & t0 & Hp & Hk & Hl & Ht & _)]%do_DELETE_inv);
      [done|]. split; [done|]. by exists k, t0.
  - intros (Ha & k & t0 & Hp & Hk & Hl & Ht).
    destruct req as [a p b]. simpl in *. subst.
    do 2 eexists. by apply (do_DELETE_accepted self k t0 c).
Qed.

(** Only an accepted request changes the store: a POST that is not
    answered 201, and a PUT or a DELETE that is not answered 200, leave
    the list and the dictionary as they are; a request that is not
    authenticated is answered 401 before anything else is looked at. *)
Theorem rejected_requests_change_nothing self req c :
  (∀ code self' c', Api.do_POST self req c = Ok ((code, self'), c') →
                    code ≠ 201 → self' = self)
  ∧ (∀ code self' c', Api.do_PUT self req c = Ok ((code, self'), c') →
                      code ≠ 200 → self' = self)
  ∧ (∀ code self' c', Api.do_DELETE self req c = Ok ((code, self'), c') →
                      code ≠ 200 → self' = self)
  ∧ (Api.authenticated req = false →
     Api.do_POST self req c = Ok ((401, self), c)
     ∧ Api.do_PUT self req c = Ok ((401, self), c)
     ∧ Api.do_DELETE self req c = Ok ((401, self), c)).
Proof.
  split; [|split; [|split]].
  - intros code self' c' [[_ ->]|[-> _]]%do_POST_inv; done.
  - intros code self' c' [[_ ->]|[-> _]]%do_PUT_inv; done.
  - intros code self' c' [[_ ->]|[-> _]]%do_DELETE_inv; done.
  - intros Hauth. unfold Api.do_POST, Api.do_PUT, Api.do_DELETE, Api.send_auth_error.
    by rewrite Hauth.
Qed.

(** ** The store after loading *)

Lemma load_loop_dict_below i data d k :
  k < Z.of_nat i + 1 → (Api.load_loop i data d).2 !! k = d !! k.
Proof.
  revert i d. induction data as [|t0 rest IH]; intros i d Hk; [done|].
  simpl. specialize (IH (S i) (<[Z.of_nat i + 1 := set_id t0 (Z.of_nat i + 1)]> d)).
  destruct (Api.load_loop (S i) rest _) as [txs' d']. simpl in *.
  rewrite IH by lia. apply lookup_insert_ne. lia.
Qed.

Lemma load_loop_dict_lookup i data d j t :
  data !! j = Some t →
  (Api.load_loop i data d).2 !! (Z.of_nat (i + j) + 1)
  = Some (set_id t (Z.of_nat (i + j) + 1)).
Proof.
  revert i d j. induction data as [|t0 rest IH]; intros i d j Hj; [done|].
  simpl.
  pose proof (load_loop_dict_below (S i) rest
                (<[Z.of_nat i + 1 := set_id t0 (Z.of_nat i + 1)]> d)) as Hbelow.
  specialize (IH (S i) (<[Z.of_nat i + 1 := set_id t0 (Z.of_nat i + 1)]> d)).
  destruct (Api.load_loop (S i) rest _) as [txs' d']. simpl in *.
  destruct j as [|j]; simpl in Hj.
  - simplify_eq. rewrite Nat.add_0_r, Hbelow by lia. by rewrite lookup_insert_eq.
  - replace (i + S j)%nat with (S i + j)%nat by lia. by apply IH.
Qed.

Lemma load_loop_dict_inv i data d k t' :
  (Api.load_loop i data d).2 !! k = Some t' →
  d !! k = Some t' ∨ ∃ j, is_Some (data !! j) ∧ k = Z.of_nat (i + j) + 1.
Proof.
  revert i d. induction data as [|t0 rest IH]; intros i d; [by left|].
  simpl. specialize (IH (S i) (<[Z.of_nat i + 1 := set_id t0 (Z.of_nat i + 1)]> d)).
  destruct (Api.load_loop (S i) rest _) as [txs' d']. simpl in *.
  intros [Hd|(j & Hj & ->)]%IH.
  - destruct (decide (k = Z.of_nat i + 1)) as [->|Hne].
    + right. exists 0%nat. split; [by eexists|]. f_equal. lia.
    + left. by rewrite lookup_insert_ne in Hd.
  - right. exists (S j). split; [done|]. f_equal. lia.
Qed.

Lemma load_transactions_dense file : dense (Api.load_transactions file).
Proof.
  destruct file as [data|]; [|by intros j t].
  intros j t Hj.
  assert (is_Some (data !! j)) as [t0 Ht0].
  { apply lookup_lt_is_Some. apply lookup_lt_Some in Hj.
    unfold Api.load_transactions in Hj.
    pose proof (load_loop_length 0 data ∅) as Hlen.
    destruct (Api.load_loop 0 data ∅). simpl in *. lia. }
  rewrite (load_transactions_lookup _ _ _ Ht0) in Hj. by simplify_eq.
Qed.

Lemma load_transactions_in_sync file : in_sync (Api.load_transactions file).
Proof.
  destruct file as [data|].
  2:{ intros k t. simpl. rewrite lookup_empty.
      split; [done|]. by intros [?%elem_of_nil _]. }
  intros k t.
  pose proof (load_transactions_lookup data) as Hlist.
  pose proof (load_loop_dict_lookup 0 data ∅) as Hdict.
  pose proof (load_loop_dict_inv 0 data ∅) as Hinv.
  pose proof (load_loop_length 0 data ∅) as Hlen.
  unfold Api.load_transactions in *.
  destruct (Api.load_loop 0 data ∅) as [txs d]. simpl in *. split.
  - intros Hk. destruct (Hinv _ _ Hk) as [?|(j & [t0 Ht0] & ->)]; [done|].
    rewrite (Hdict _ _ Ht0) in Hk. simplify_eq. split; [|done].
    eapply list_elem_of_lookup_2. by apply Hlist.
  - intros [(j & Hj)%list_elem_of_lookup Hid].
    assert (is_Some (data !! j)) as [t0 Ht0].
    { apply lookup_lt_is_Some. apply lookup_lt_Some in Hj. lia. }
    rewrite (Hlist _ _ Ht0) in Hj. simplify_eq. simpl in Hid. simplify_eq.
    by apply (Hdict j t0).
Qed.

Lemma dense_ids s j o : dense s → Api.ids s !! j = Some o → o = Some (Z.of_nat j + 1).
Proof.
  intros Hd. unfold Api.ids. rewrite list_lookup_fmap.
  destruct (Api.transactions s !! j) as [t|] eqn:Ht; [|done].
  intros [= <-]. by apply Hd.
Qed.

Lemma dense_NoDup s : dense s → NoDup (Api.ids s).
Proof.
  intros Hd. apply NoDup_alt. intros i j o Hi Hj.
  apply (dense_ids _ _ _ Hd) in Hi, Hj. simplify_eq. lia.
Qed.

(** Loading: when the file holds a JSON list of records, whatever their
    fields and identifiers, and when the file is missing, the store
    [load_transactions] builds has identifier [j + 1] on its record at
    position [j], no identifier twice, and a dictionary that sends an
    identifier to a record exactly when the list holds that record under
    that identifier. *)
Theorem load_is_consistent file :
  let s := Api.load_transactions file in
  dense s ∧ NoDup (Api.ids s) ∧ in_sync s.
Proof.
  split; [|split].
  - apply load_transactions_dense.
  - apply dense_NoDup, load_transactions_dense.
  - apply load_transactions_in_sync.
Qed.

(** ** Updates and deletions keep the store consistent *)

Lemma replace_first_spec k u txs :
  ((Some k ∉ tx_id <$> txs) ∧ Api.replace_first k u txs = txs)
  ∨ ∃ l1 t l2, txs = l1 ++ t :: l2 ∧ (Some k ∉ tx_id <$> l1) ∧ tx_id t = Some k
               ∧ Api.replace_first k u txs = l1 ++ u :: l2.
Proof.
  induction txs as [|t rest IH]; [left; split; [apply not_elem_of_nil|done]|].
  simpl. destruct (get_id_eq t k) eqn:Ht.
  - right. exists [], t, rest. apply get_id_eq_true in Ht.
    repeat split; try done. apply not_elem_of_nil.
  - assert (tx_id t ≠ Some k) as Hne.
    { intros H%get_id_eq_true. congruence. }
    destruct IH as [[Hnin ->]|(l1 & t1 & l2 & -> & Hnin & Ht1 & ->)].
    + left. split; [|done]. csimpl. rewrite not_elem_of_cons. split; [congruence|done].
    + right. exists (t :: l1), t1, l2. repeat split; try done.
      csimpl. rewrite not_elem_of_cons. split; [congruence|done].
Qed.

Lemma do_PUT_in_sync self req c code self' c' :
  in_sync self → NoDup (Api.ids self) →
  Api.do_PUT self req c = Ok ((code, self'), c') → in_sync self'.
Proof.
  intros Hsync Hnd [[_ ->]|(_ & _ & k & t & t0 & _ & _ & _ & Hlook & _ & ->)]%do_PUT_inv;
    [done|].
  apply Hsync in Hlook as [Hin Hid0].
  set (u := updated k t (c 2%nat)).
  assert (tx_id u = Some k) as Hu by done.
  destruct (replace_first_spec k u (Api.transactions self))
    as [[Hnin _]|(l1 & t1 & l2 & Hl & Hnin1 & Ht1 & Hr)].
  { exfalso. apply Hnin. apply list_elem_of_fmap. by exists t0. }
  assert (Some k ∉ (tx_id <$> l2)) as Hnin2.
  { unfold Api.ids in Hnd. rewrite Hl, fmap_app, fmap_cons, Ht1 in Hnd.
    apply NoDup_app in Hnd as (_ & _ & Hnd). by apply NoDup_cons in Hnd as [? _]. }
  intros k' t'. simpl. rewrite Hr.
  destruct (decide (k' = k)) as [->|Hne].
  - rewrite lookup_insert_eq. split.
    + intros [= <-]. split; [|done]. apply elem_of_app. right. left.
    + intros [Hin' Hid']. f_equal.
      apply elem_of_app in Hin' as [Hin'|Hin'].
      { exfalso. apply Hnin1, list_elem_of_fmap. by exists t'. }
      apply elem_of_cons in Hin' as [->|Hin']; [done|].
      exfalso. apply Hnin2, list_elem_of_fmap. by exists t'.
  - rewrite lookup_insert_ne by done. rewrite (Hsync k' t'), Hl.
    rewrite !elem_of_app, !elem_of_cons. split.
    + intros [[?|[->|?]] Hid']; [by auto| |by auto].
      exfalso. congruence.
    + intros [[?|[->|?]] Hid']; [by auto| |by auto].
      exfalso. congruence.
Qed.

Lemma do_DELETE_in_sync self req c code self' c' :
  in_sync self →
  Api.do_DELETE self req c = Ok ((code, self'), c') → in_sync self'.
Proof.
  intros Hsync [[_ ->]|(_ & _ & k & t0 & _ & _ & _ & _ & ->)]%do_DELETE_inv; [done|].
  intros k' t'. simpl.
  rewrite list_elem_of_In, filter_In, <- list_elem_of_In, negb_true_iff.
  assert (get_id_eq t' k = false ↔ tx_id t' ≠ Some k) as ->.
  { rewrite <- get_id_eq_true. by destruct (get_id_eq t' k). }
  destruct (decide (k' = k)) as [->|Hne].
  - rewrite lookup_delete_eq. intuition congruence.
  - rewrite lookup_delete_ne by done. rewrite (Hsync k' t'). intuition congruence.
Qed.

(** A store whose dictionary is in step with its list and whose
    identifiers are pairwise distinct stays so under [do_PUT] and under
    [do_DELETE], whatever the request and its outcome. (Under [do_POST]
    it need not.) *)
Theorem updates_and_deletions_keep_consistency self req c code self' c' :
  in_sync self → NoDup (Api.ids self) →
  Api.do_PUT self req c = Ok ((code, self'), c')
  ∨ Api.do_DELETE self req c = Ok ((code, self'), c') →
  in_sync self' ∧ NoDup (Api.ids self').
Proof.
  intros Hsync Hnd [Hput|Hdel].
  - split; [by eapply do_PUT_in_sync|]. by rewrite (do_PUT_ids _ _ _ _ _ _ Hput).
  - split; [by eapply do_DELETE_in_sync|]. by eapply do_DELETE_ids.
Qed.

Lemma one_sms_lookup : Api.transactions_dict one_sms !! 1 = Some (set_id sms 1).
Proof. apply (load_transactions_in_sync (Some [sms])). split; [left|done]. Qed.

Lemma updates_and_deletions_keep_consistency_witness :
  let u := updated 1 sms (frozen_clock 2%nat) in
  let self' := {| Api.transactions := Api.replace_first 1 u (Api.transactions one_sms);
                  Api.transactions_dict := <[1 := u]> (Api.transactions_dict one_sms) |} in
  in_sync self' ∧ NoDup (Api.ids self').
Proof.
  intros u self'.
  apply (updates_and_deletions_keep_consistency one_sms (update_request 1 sms)
           frozen_clock 200 self' (λ n, frozen_clock (S (S (S n))))).
  - apply load_transactions_in_sync.
  - apply dense_NoDup, load_transactions_dense.
  - left. apply (do_PUT_accepted one_sms 1 sms (set_id sms 1)).
    + lia.
    + exact one_sms_lookup.
    + reflexivity.
Defined.

(** ** Creations and updates keep identifiers equal to positions *)

Lemma dense_of_ids s :
  (∀ j o, Api.ids s !! j = Some o → o = Some (Z.of_nat j + 1)) → dense s.
Proof.
  intros H j t Hj. specialize (H j (tx_id t)).
  unfold Api.ids in H. rewrite list_lookup_fmap, Hj in H.
  by apply H.
Qed.

Lemma do_POST_dense self req c code self' c' :
  dense self →
  Api.do_POST self req c = Ok ((code, self'), c') →
  dense self' ∧ (length (Api.transactions self) ≤ length (Api.transactions self'))%nat.
Proof.
  intros Hd [[_ ->]|(_ & _ & _ & t & _ & _ & ->)]%do_POST_inv; [done|].
  simpl. rewrite length_app. split; [|lia].
  intros j t'. simpl. intros Hj.
  apply lookup_app_Some in Hj as [Hj|[Hlen Hj]]; [by apply Hd|].
  apply list_lookup_singleton_Some in Hj as [Hj <-].
  simpl. do 2 f_equal. lia.
Qed.

Lemma do_POST_in_sync self req c code self' c' :
  dense self → in_sync self →
  Api.do_POST self req c = Ok ((code, self'), c') → in_sync self'.
Proof.
  intros Hd Hsync [[_ ->]|(_ & _ & _ & t & _ & _ & ->)]%do_POST_inv; [done|].
  set (u := created self t (c 0%nat)).
  set (n := Z.of_nat (length (Api.transactions self)) + 1).
  assert (tx_id u = Some n) as Hu by done.
  assert (∀ t', t' ∈ Api.transactions self → tx_id t' ≠ Some n) as Hold.
  { intros t' (j & Hj)%list_elem_of_lookup Hid.
    pose proof (lookup_lt_Some _ _ _ Hj). apply Hd in Hj.
    rewrite Hj in Hid. simplify_eq. lia. }
  intros k t'. simpl. rewrite elem_of_app, list_elem_of_singleton.
  destruct (decide (k = n)) as [->|Hne].
  - rewrite lookup_insert_eq. split.
    + intros [= <-]. auto.
    + intros [[Hin| ->] Hid]; [|done]. by destruct (Hold t').
  - rewrite lookup_insert_ne by done. rewrite (Hsync k t'). split.
    + intros [? ?]. auto.
    + intros [[Hin| ->] Hid]; [done|]. congruence.
Qed.

Lemma do_PUT_dense self req c code self' c' :
  dense self →
  Api.do_PUT self req c = Ok ((code, self'), c') →
  dense self' ∧ length (Api.transactions self) = length (Api.transactions self').
Proof.
  intros Hd Hput. pose proof (do_PUT_ids _ _ _ _ _ _ Hput) as Hids. split.
  - apply dense_of_ids. rewrite Hids. intros j o. by apply dense_ids.
  - apply (f_equal length) in Hids. unfold Api.ids in Hids.
    by rewrite !length_fmap in Hids.
Qed.

(** On one handler whose identifiers are positions and whose dictionary
    is in step, any sequence of [do_POST] and [do_PUT] calls, with any
    requests and whatever their outcomes, leaves a store of the same
    kind: the record at position [j] carries identifier [j + 1], so no
    identifier occurs twice, the dictionary is in step with the list,
    and no record has gone. *)
Theorem creations_and_updates_keep_positions s0 s :
  dense s0 → in_sync s0 → grown_from s0 s →
  dense s ∧ NoDup (Api.ids s) ∧ in_sync s
  ∧ (length (Api.transactions s0) ≤ length (Api.transactions s))%nat.
Proof.
  intros Hd Hsync Hgrown.
  enough (dense s ∧ in_sync s
          ∧ (length (Api.transactions s0) ≤ length (Api.transactions s))%nat)
    as (? & ? & ?) by (split; [done|]; split; [by apply dense_NoDup|]; by split).
  induction Hgrown as [|s1 s2 req c code c' _ (Hd1 & Hs1 & Hl1) Hpost
                        |s1 s2 req c code c' _ (Hd1 & Hs1 & Hl1) Hput].
  - done.
  - destruct (do_POST_dense _ _ _ _ _ _ Hd1 Hpost) as [? ?].
    split; [done|]. split; [|lia].
    exact (do_POST_in_sync _ _ _ _ _ _ Hd1 Hs1 Hpost).
  - destruct (do_PUT_dense _ _ _ _ _ _ Hd1 Hput) as [? ?].
    split; [done|]. split; [|lia].
    exact (do_PUT_in_sync _ _ _ _ _ _ Hs1 (dense_NoDup _ Hd1) Hput).
Qed.

Lemma sms_has_required_fields : has_required_fields sms.
Proof.
  apply has_required_fields_forallb. vm_compute. reflexivity.
Qed.

Lemma creations_and_updates_keep_positions_witness :
  let u := created one_sms sms (frozen_clock 0%nat) in
  let s := {| Api.transactions := Api.transactions one_sms ++ [u];
              Api.transactions_dict :=
                <[Z.of_nat (length (Api.transactions one_sms)) + 1 := u]>
                  (Api.transactions_dict one_sms) |} in
  dense s ∧ NoDup (Api.ids s) ∧ in_sync s
  ∧ (length (Api.transactions one_sms) ≤ length (Api.transactions s))%nat.
Proof.
  intros u s.
  apply (creations_and_updates_keep_positions one_sms s).
  - apply load_transactions_dense.
  - apply load_transactions_in_sync.
  - apply (grown_post one_sms one_sms s (create_request sms) frozen_clock 201
             (λ n, frozen_clock (S n))).
    + apply grown_refl.
    + apply (do_POST_accepted one_sms sms frozen_clock).
      apply has_required_fields_forallb, sms_has_required_fields.
Defined.

(** ** Reading a record *)

Lemma handler_linear_search_loop_run k txs c :
  Handler.linear_search_loop k txs c
  = Ok (head (filter (λ t, tx_id t = Some k) txs), λ n, c (S n)).
Proof.
  induction txs as [|t rest IH]; simpl; [done|].
  rewrite filter_cons.
  destruct (get_id_eq t k) eqn:Heq.
  - apply get_id_eq_true in Heq. by rewrite decide_True.
  - rewrite decide_False; [done|].
    intros Hid%get_id_eq_true. congruence.
Qed.

Lemma handler_linear_search_run self k c :
  Handler.linear_search self k c
  = Ok (head (filter (λ t, tx_id t = Some k) (Api.transactions self)),
        λ n, c (S (S n))).
Proof.
  unfold Handler.linear_search. rewrite bind_run. simpl.
  by rewrite handler_linear_search_loop_run.
Qed.

Lemma head_filter_id k (txs : list transaction) :
  head (filter (λ t, tx_id t = Some k) txs) ≠ None ↔ Some k ∈ tx_id <$> txs.
Proof.
  rewrite head_None, list_elem_of_fmap. split.
  - intros Hne. destruct (filter _ txs) as [|t l] eqn:Hf; [done|].
    assert (t ∈ filter (λ t, tx_id t = Some k) txs) as Hin by (rewrite Hf; left).
    apply list_elem_of_filter in Hin as [Hid Hin]. by exists t.
  - intros (t & Hid & Hin) Hnil.
    by apply (filter_nil_not_elem_of _ _ t Hnil).
Qed.

(** What [do_GET] answers to an authenticated request for one record. *)
Lemma do_GET_run self k c :
  k ≠ 0 →
  Handler.do_GET self (get_request k) c
  = match Api.transactions_dict self !! k with
    | Some t =>
        if truthy t
        then Ok (Handler.OneTransaction t (bool_decide (Some k ∈ Api.ids self)) true,
                 λ n, c (S (S (S (S n)))))
        else Ok (Handler.ErrorResponse 404 (c 4%nat), λ n, c (S (S (S (S (S n))))))
    | None => Ok (Handler.ErrorResponse 404 (c 4%nat), λ n, c (S (S (S (S (S n))))))
    end.
Proof.
  intros Hk. unfold Handler.do_GET, get_request. simpl.
  destruct (Z.eqb_spec k 0); [done|].
  rewrite bind_run, handler_linear_search_run. rewrite bind_run.
  unfold Api.dictionary_lookup. simpl.
  destruct (Api.transactions_dict self !! k) as [t|]; [|done].
  destruct (truthy t); [|done].
  rewrite (bool_decide_ext _ _ (head_filter_id k (Api.transactions self))).
  by rewrite (bool_decide_eq_true_2 (Some t ≠ None)).
Qed.

Lemma do_GET_in_sync self k c :
  in_sync self → k ≠ 0 →
  Handler.do_GET self (get_request k) c
  = match Api.transactions_dict self !! k with
    | Some t => Ok (Handler.OneTransaction t true true, λ n, c (S (S (S (S n)))))
    | None => Ok (Handler.ErrorResponse 404 (c 4%nat), λ n, c (S (S (S (S (S n))))))
    end.
Proof.
  intros Hsync Hk. rewrite do_GET_run by done.
  destruct (Api.transactions_dict self !! k) as [t|] eqn:Hlook; [|done].
  apply Hsync in Hlook as [Hin Hid]. rewrite (truthy_id _ _ Hid).
  rewrite bool_decide_eq_true_2; [done|].
  apply list_elem_of_fmap. by exists t.
Qed.

(** On a store whose dictionary is in step with its list, an
    authenticated GET of a non-zero identifier answers 200 with the
    record of that identifier when the list holds one, flagging that the
    scan and the dictionary both found it, and answers 404 when the list
    holds none; it never raises. *)
Theorem get_serves_the_record self k c :
  in_sync self → k ≠ 0 →
  ∃ r c', Handler.do_GET self (get_request k) c = Ok (r, c')
    ∧ (∀ t, t ∈ Api.transactions self → tx_id t = Some k →
            r = Handler.OneTransaction t true true)
    ∧ (Some k ∉ Api.ids self → r = Handler.ErrorResponse 404 (c 4%nat)).
Proof.
  intros Hsync Hk. rewrite do_GET_in_sync by done.
  destruct (Api.transactions_dict self !! k) as [t|] eqn:Hlook.
  - do 2 eexists. split; [done|]. split.
    + intros t' Hin' Hid'.
      assert (Api.transactions_dict self !! k = Some t') as Hlook'
        by by apply Hsync.
      congruence.
    + intros Hnot. exfalso. apply Hnot.
      apply Hsync in Hlook as [Hin Hid]. apply list_elem_of_fmap. by exists t.
  - do 2 eexists. split; [done|]. split; [|done].
    intros t' Hin' Hid'.
    assert (Api.transactions_dict self !! k = Some t') as Hlook'
      by by apply Hsync.
    congruence.
Qed.

Lemma get_serves_the_record_witness :
  ∃ r c', Handler.do_GET one_sms (get_request 1) frozen_clock = Ok (r, c')
    ∧ (∀ t, t ∈ Api.transactions one_sms → tx_id t = Some 1 →
            r = Handler.OneTransaction t true true)
    ∧ (Some 1 ∉ Api.ids one_sms → r = Handler.ErrorResponse 404 (frozen_clock 4%nat)).
Proof.
  apply (get_serves_the_record one_sms 1 frozen_clock).
  - apply load_transactions_in_sync.
  - lia.
Defined.

(** [__init__] loads the store before the handler serves: on the store
    just loaded, an authenticated GET of identifier [k] serves the [k]-th
    message of the file, stamped with identifier [k] whatever identifier
    the file gave it, and answers 404 for every other non-zero [k]. *)
Theorem get_serves_the_kth_message data k c :
  k ≠ 0 →
  ∃ r c', Handler.do_GET (Api.load_transactions (Some data)) (get_request k) c
          = Ok (r, c')
    ∧ (∀ j t, data !! j = Some t → k = Z.of_nat j + 1 →
              r = Handler.OneTransaction (set_id t k) true true)
    ∧ (k < 1 ∨ Z.of_nat (length data) < k →
       r = Handler.ErrorResponse 404 (c 4%nat)).
Proof.
  intros Hk.
  pose proof (load_transactions_in_sync (Some data)) as Hsync.
  pose proof (load_transactions_dense (Some data)) as Hdense.
  destruct (load_transactions_numbers_by_position data) as [Hlen _].
  rewrite do_GET_in_sync by done.
  destruct (Api.transactions_dict _ !! k) as [t'|] eqn:Hlook.
  - apply Hsync in Hlook as [(i & Hi)%list_elem_of_lookup Hid].
    pose proof (lookup_lt_Some _ _ _ Hi) as Hlt.
    rewrite (Hdense _ _ Hi) in Hid. injection Hid as <-.
    do 2 eexists. split; [done|]. split; [|lia].
    intros j t Hj Hkj. assert (j = i) as -> by lia.
    rewrite (load_transactions_lookup _ _ _ Hj) in Hi. by injection Hi as <-.
  - do 2 eexists. split; [done|]. split; [|done].
    intros j t Hj ->. exfalso.
    assert (Api.transactions_dict (Api.load_transactions (Some data))
              !! (Z.of_nat j + 1) = Some (set_id t (Z.of_nat j + 1))) as Hlook'.
    { apply Hsync. split; [|done].
      eapply list_elem_of_lookup_2. by apply load_transactions_lookup. }
    congruence.
Qed.

Lemma get_serves_the_kth_message_witness :
  ∃ r c', Handler.do_GET (Api.load_transactions (Some [carried])) (get_request 1)
            frozen_clock = Ok (r, c')
    ∧ (∀ j t, [carried] !! j = Some t → 1 = Z.of_nat j + 1 →
              r = Handler.OneTransaction (set_id t 1) true true)
    ∧ (1 < 1 ∨ Z.of_nat (length [carried]) < 1 →
       r = Handler.ErrorResponse 404 (frozen_clock 4%nat)).
Proof. apply (get_serves_the_kth_message [carried] 1 frozen_clock). lia. Defined.

(** ** Serving requests *)







(** The creation after a deletion, as served: with three messages in
    the file, the deletion of record 1 leaves its handler with
    identifiers 2 and 3; the creation that follows is served from the
    file again and numbers the new record 4. *)
Example create_after_delete_served c :
  let file := Some [sms; sms; sms] in
  match Server.serve_forever [(file, Server.DELETE, delete_request 1);
                               (file, Server.POST, create_request sms)] c with
  | Ok ([(Server.Status 200, s1); (Server.Status 201, s2)], _) =>
      Api.ids s1 = [Some 2; Some 3]
      ∧ Api.ids s2 = [Some 1; Some 2; Some 3; Some 4]
  | _ => False
  end.
Proof. vm_compute. done. Qed.

(** ** Writing, then reading, as served *)

Lemma serve_two file method1 req1 method2 req2 c served1 c1 served2 c2 :
  Server.handle file method1 req1 c = Ok (served1, c1) →
  Server.handle file method2 req2 c1 = Ok (served2, c2) →
  Server.serve_forever [(file, method1, req1); (file, method2, req2)] c
  = Ok ([served1; served2], c2).
Proof.
  intros H1 H2. unfold Server.serve_forever.
  rewrite bind_run, H1. lazy beta iota. rewrite bind_run, bind_run, H2. reflexivity.
Qed.

Lemma handle_GET_loaded file k c :
  k ≠ 0 →
  Server.handle file Server.GET (get_request k) c
  = match Api.transactions_dict (Api.load_transactions file) !! k with
    | Some t =>
        Ok ((Server.Response (Handler.OneTransaction t true true),
             Api.load_transactions file), λ n, c (S (S (S (S n)))))
    | None =>
        Ok ((Server.Response (Handler.ErrorResponse 404 (c 4%nat)),
             Api.load_transactions file), λ n, c (S (S (S (S (S n))))))
    end.
Proof.
  intros Hk. unfold Server.handle.
  rewrite bind_run, do_GET_in_sync by (apply load_transactions_in_sync || done).
  by destruct (Api.transactions_dict _ !! k).
Qed.

Lemma loaded_lookup_Some data j t :
  data !! j = Some t →
  Api.transactions_dict (Api.load_transactions (Some data)) !! (Z.of_nat j + 1)
  = Some (set_id t (Z.of_nat j + 1)).
Proof.
  intros Hj. apply (load_transactions_in_sync (Some data)). split; [|done].
  eapply list_elem_of_lookup_2. by apply load_transactions_lookup.
Qed.

Lemma loaded_lookup_None file k :
  k < 1 ∨ Z.of_nat (length (Api.transactions (Api.load_transactions file))) < k →
  Api.transactions_dict (Api.load_transactions file) !! k = None.
Proof.
  intros Hout.
  destruct (Api.transactions_dict (Api.load_transactions file) !! k) as [t|] eqn:Hlook;
    [|done].
  apply (load_transactions_in_sync file) in Hlook as [(j & Hj)%list_elem_of_lookup Hid].
  pose proof (lookup_lt_Some _ _ _ Hj) as Hlt.
  rewrite (load_transactions_dense file _ _ Hj) in Hid. simplify_eq. lia.
Qed.

(** A created record does not outlive its request. A creation with the
    three required fields is answered 201 and its handler holds the new
    record under the number of messages in the file plus one; the next
    request is served from the file again, so a GET of that identifier
    is answered 404 (the file being the same). *)
Theorem served_get_after_create file t c :
  has_required_fields t →
  let self := Api.load_transactions file in
  let k := Z.of_nat (length (Api.transactions self)) + 1 in
  ∃ self' c',
    Server.serve_forever [(file, Server.POST, create_request t);
                          (file, Server.GET, get_request k)] c
    = Ok ([(Server.Status 201, self');
           (Server.Response (Handler.ErrorResponse 404 (c 5%nat)), self)], c')
    ∧ Api.transactions_dict self' !! k = Some (created self t (c 0%nat))
    ∧ Api.transactions self' = Api.transactions self ++ [created self t (c 0%nat)].
Proof.
  intros Hreq%has_required_fields_forallb self k.
  eexists _, _. split; [|split].
  - eapply serve_two.
    + unfold Server.handle. fold self.
      by rewrite bind_run, (do_POST_accepted self t c Hreq).
    + rewrite handle_GET_loaded by (unfold k; lia).
      rewrite loaded_lookup_None by (right; fold self; unfold k; lia).
      reflexivity.
  - simpl. apply lookup_insert_eq.
  - done.
Qed.

Lemma served_get_after_create_witness :
  let self := Api.load_transactions (Some [carried]) in
  let k := Z.of_nat (length (Api.transactions self)) + 1 in
  ∃ self' c',
    Server.serve_forever [(Some [carried], Server.POST, create_request sms);
                          (Some [carried], Server.GET, get_request k)] frozen_clock
    = Ok ([(Server.Status 201, self');
           (Server.Response (Handler.ErrorResponse 404 (frozen_clock 5%nat)), self)], c')
    ∧ Api.transactions_dict self' !! k = Some (created self sms (frozen_clock 0%nat))
    ∧ Api.transactions self' = Api.transactions self ++ [created self sms (frozen_clock 0%nat)].
Proof.
  apply (served_get_after_create (Some [carried]) sms frozen_clock).
  apply has_required_fields_forallb. vm_compute. reflexivity.
Defined.

(** An update does not outlive its request. An update of the [k]-th
    message of the file is answered 200 and its handler holds the body
    of the update under [k]; the next request is served from the file
    again, so a GET of [k] serves the message of the file, not the
    update (the file being the same). *)
Theorem served_get_after_update data j t0 t c :
  data !! j = Some t0 →
  let self := Api.load_transactions (Some data) in
  let k := Z.of_nat j + 1 in
  ∃ self' c',
    Server.serve_forever [(Some data, Server.PUT, update_request k t);
                          (Some data, Server.GET, get_request k)] c
    = Ok ([(Server.Status 200, self');
           (Server.Response (Handler.OneTransaction (set_id t0 k) true true), self)], c')
    ∧ Api.transactions_dict self' !! k = Some (updated k t (c 2%nat))
    ∧ Api.ids self' = Api.ids self.
Proof.
  intros Hj self k.
  pose proof (loaded_lookup_Some data j t0 Hj) as Hlook. fold k self in Hlook.
  assert (k ≠ 0) as Hk by (unfold k; lia).
  pose proof (do_PUT_accepted self k t (set_id t0 k) c Hk Hlook eq_refl) as Hput.
  eexists _, _. split; [|split].
  - eapply serve_two.
    + unfold Server.handle. fold self. by rewrite bind_run, Hput.
    + rewrite handle_GET_loaded by done. fold self. rewrite Hlook. reflexivity.
  - simpl. apply lookup_insert_eq.
  - exact (do_PUT_ids _ _ _ _ _ _ Hput).
Qed.

Lemma served_get_after_update_witness :
  let self := Api.load_transactions (Some [carried]) in
  let k := Z.of_nat 0 + 1 in
  ∃ self' c',
    Server.serve_forever [(Some [carried], Server.PUT, update_request k sms);
                          (Some [carried], Server.GET, get_request k)] frozen_clock
    = Ok ([(Server.Status 200, self');
           (Server.Response (Handler.OneTransaction (set_id carried k) true true), self)],
          c')
    ∧ Api.transactions_dict self' !! k = Some (updated k sms (frozen_clock 2%nat))
    ∧ Api.ids self' = Api.ids self.
Proof.
  apply (served_get_after_update [carried] 0 carried sms frozen_clock).
  reflexivity.
Defined.

(** A deletion does not outlive its request. A deletion of the [k]-th
    message of the file is answered 200 and its handler holds no record
    of identifier [k] any more; the next request is served from the file
    again, so a GET of [k] still serves the message (the file being the
    same). *)
Theorem served_get_after_delete data j t0 c :
  data !! j = Some t0 →
  let self := Api.load_transactions (Some data) in
  let k := Z.of_nat j + 1 in
  ∃ self' c',
    Server.serve_forever [(Some data, Server.DELETE, delete_request k);
                          (Some data, Server.GET, get_request k)] c
    = Ok ([(Server.Status 200, self');
           (Server.Response (Handler.OneTransaction (set_id t0 k) true true), self)], c')
    ∧ Api.transactions_dict self' !! k = None
    ∧ (Some k ∉ Api.ids self').
Proof.
  intros Hj self k.
  pose proof (loaded_lookup_Some data j t0 Hj) as Hlook. fold k self in Hlook.
  assert (k ≠ 0) as Hk by (unfold k; lia).
  pose proof (do_DELETE_accepted self k (set_id t0 k) c Hk Hlook eq_refl) as Hdel.
  eexists _, _. split; [|split].
  - eapply serve_two.
    + unfold Server.handle. fold self. by rewrite bind_run, Hdel.
    + rewrite handle_GET_loaded by done. fold self. rewrite Hlook. reflexivity.
  - simpl. apply lookup_delete_eq.
  - unfold Api.ids. simpl.
    intros (t' & Hid & Hin)%list_elem_of_fmap.
    apply list_elem_of_In, filter_In in Hin as [_ Hneg].
    apply negb_true_iff in Hneg.
    assert (get_id_eq t' k = true) as Heq by by apply get_id_eq_true.
    congruence.
Qed.

Lemma served_get_after_delete_witness :
  let self := Api.load_transactions (Some [carried]) in
  let k := Z.of_nat 0 + 1 in
  ∃ self' c',
    Server.serve_forever [(Some [carried], Server.DELETE, delete_request k);
                          (Some [carried], Server.GET, get_request k)] frozen_clock
    = Ok ([(Server.Status 200, self');
           (Server.Response (Handler.OneTransaction (set_id carried k) true true), self)],
          c')
    ∧ Api.transactions_dict self' !! k = None
    ∧ (Some k ∉ Api.ids self').
Proof.
  apply (served_get_after_delete [carried] 0 carried frozen_clock).
  reflexivity.
Defined.

(** * Routing and authentication *)

Section Routing.
Import Stdlib.Strings.Ascii.

Variable int : string → option Z.

Lemma append_nil s : "" +:+ s = s.
Proof. reflexivity. Qed.

Lemma append_cons a s t : String.String a s +:+ t = String.String a (s +:+ t).
Proof. reflexivity. Qed.

Lemma split_nonempty ch s : Handler.split ch s ≠ [].
Proof.
  destruct s as [|a s']; simpl; [done|].
  destruct (Ascii.eqb a ch); [done|]. by destruct (Handler.split ch s').
Qed.

Lemma split_head ch s : ∃ rest, Handler.split ch s = before ch s :: rest.
Proof.
  induction s as [|a s' [rest IH]]; simpl; [by eexists|].
  destruct (Ascii.eqb a ch); [by eexists|]. rewrite IH. by eexists.
Qed.

Lemma getitem_split ch s : getitem (Handler.split ch s) 0 = Ok (before ch s).
Proof. destruct (split_head ch s) as [rest ->]. reflexivity. Qed.

Lemma before_free ch p : contains ch p = false → before ch p = p.
Proof.
  induction p as [|a p IH]; simpl; [done|].
  intros [-> Hp]%orb_false_iff. by rewrite IH.
Qed.

Lemma before_app ch p q :
  contains ch p = false → before ch (p +:+ String.String ch q) = p.
Proof.
  induction p as [|a p IH]; rewrite ?append_nil, ?append_cons; simpl.
  - by rewrite Ascii.eqb_refl.
  - intros [-> Hp]%orb_false_iff. by rewrite IH.
Qed.

Lemma contains_app ch p q : contains ch (p +:+ q) = contains ch p || contains ch q.
Proof.
  induction p as [|a p IH]; rewrite ?append_nil, ?append_cons; simpl; [done|].
  by rewrite IH, orb_assoc.
Qed.

Lemma split_single ch s p0 :
  Handler.split ch s = [p0] ↔ contains ch s = false ∧ p0 = s.
Proof.
  revert p0. induction s as [|a s' IH]; intros p0; simpl.
  - split; [by intros [= <-]|by intros [_ ->]].
  - pose proof (split_nonempty ch s') as Hne.
    destruct (Ascii.eqb a ch); simpl.
    + split; [|by intros [? _]]. intros [= _ Hnil]. done.
    + destruct (Handler.split ch s') as [|p ps]; [done|]. split.
      * intros [= <- ->]. destruct (IH p) as [[Hc ->] _]; done.
      * intros [Hc ->]. destruct (IH s') as [_ Hs]. specialize (Hs (conj Hc eq_refl)).
        by simplify_eq.
Qed.

Lemma split_two ch s p0 p1 :
  Handler.split ch s = [p0; p1]
  ↔ s = p0 +:+ String.String ch p1 ∧ contains ch p0 = false ∧ contains ch p1 = false.
Proof.
  revert p0. induction s as [|a s' IH]; intros p0; simpl.
  - split; [done|]. intros [Hs _]. by destruct p0.
  - pose proof (split_nonempty ch s') as Hne.
    destruct (Ascii.eqb_spec a ch) as [->|Hach]; simpl.
    + split.
      * intros [= <- [Hc ->]%split_single]. done.
      * intros (Hs & Hc0 & Hc1).
        destruct p0 as [|b p0]; rewrite ?append_nil, ?append_cons in Hs; simpl in *.
        -- simplify_eq. f_equal. by apply split_single.
        -- simplify_eq. by rewrite Ascii.eqb_refl in Hc0.
    + destruct (Handler.split ch s') as [|p ps]; [done|]. split.
      * intros [= <- ->]. destruct (IH p) as [(-> & Hc0 & Hc1) _]; [done|].
        rewrite append_cons. simpl. split; [done|]. split; [|done].
        rewrite Hc0. by destruct (Ascii.eqb_spec a ch).
      * intros (Hs & Hc0 & Hc1).
        destruct p0 as [|b p0]; rewrite ?append_nil, ?append_cons in Hs; simpl in *.
        -- by simplify_eq.
        -- simplify_eq. apply orb_false_iff in Hc0 as [_ Hc0].
           destruct (IH p0) as [_ Hs]. specialize (Hs (conj eq_refl (conj Hc0 Hc1))).
           by simplify_eq.
Qed.

Lemma parse_path_unfold path :
  Handler.parse_path int path
  = match Handler.split "/" (resource path) with
    | [p0] =>
        if String.eqb p0 "transactions" then Ok Api.Transactions else Ok Api.Invalid
    | [p0; p1] =>
        if String.eqb p0 "transactions" then
          match int p1 with
          | Some transaction_id => Ok (Api.Transaction transaction_id)
          | None => Ok Api.Invalid
          end
        else Ok Api.Invalid
    | _ => Ok Api.Invalid
    end.
Proof. unfold Handler.parse_path. by rewrite getitem_split. Qed.

(** Routing: [parse_path] never raises; it names the collection exactly
    when the resource of the path, the part before the query string
    without the slashes around it, is [transactions], and it names the
    record [k] exactly when the resource is [transactions/] followed by
    one segment without slash that [int] reads as [k]; every other path
    is invalid. *)
Theorem parse_path_routes path :
  (∃ e, Handler.parse_path int path = Ok e)
  ∧ (Handler.parse_path int path = Ok Api.Transactions
     ↔ resource path = "transactions")
  ∧ (∀ k, Handler.parse_path int path = Ok (Api.Transaction k)
          ↔ ∃ seg, resource path = "transactions/" +:+ seg
                   ∧ contains "/" seg = false ∧ int seg = Some k).
Proof.
  rewrite parse_path_unfold.
  pose proof (split_single "/" (resource path)) as Hone.
  pose proof (split_two "/" (resource path)) as Htwo.
  pose proof (split_nonempty "/" (resource path)) as Hne.
  destruct (Handler.split "/" (resource path)) as [|p0 [|p1 [|p2 ps]]]; [done| | |].
  - destruct (Hone p0) as [[Hc ->] _]; [done|]. clear Hone Htwo.
    destruct (String.eqb_spec (resource path) "transactions") as [Heq|Hneq].
    + split; [by eexists|]. split; [done|]. intros k. split; [done|].
      intros (seg & Hseg & _). rewrite Heq in Hseg. simplify_eq.
    + split; [by eexists|]. split; [done|]. intros k. split; [done|].
      intros (seg & Hseg & Hcs & _). rewrite Hseg in Hc.
      by rewrite contains_app in Hc.
  - destruct (Htwo p0 p1) as [(Hr & Hc0 & Hc1) _]; [done|]. clear Hone Htwo.
    assert (∀ seg, resource path = "transactions/" +:+ seg → contains "/" seg = false →
                   p0 = "transactions" ∧ seg = p1) as Hsegs.
    { intros seg Hseg Hcs.
      assert (Handler.split "/" (resource path) = ["transactions"; seg]) as Hsp.
      { apply split_two. by rewrite Hseg. }
      assert (Handler.split "/" (resource path) = [p0; p1]) as Hsp'.
      { apply split_two. done. }
      rewrite Hsp in Hsp'. by simplify_eq. }
    assert (resource path ≠ "transactions") as Hnot.
    { intros Heq. rewrite Hr in Heq. apply (f_equal (contains "/")) in Heq.
      rewrite contains_app in Heq. simpl in Heq.
      by rewrite orb_true_r in Heq. }
    destruct (String.eqb_spec p0 "transactions") as [->|Hneq].
    + destruct (int p1) as [k'|] eqn:Hint.
      * split; [by eexists|]. split; [done|].
        intros k. split.
        -- intros [= <-]. by exists p1.
        -- intros (seg & Hseg & Hcs & Hk). destruct (Hsegs seg Hseg Hcs) as [_ ->].
           congruence.
      * split; [by eexists|]. split; [done|].
        intros k. split; [done|].
        intros (seg & Hseg & Hcs & Hk). destruct (Hsegs seg Hseg Hcs) as [_ ->].
        congruence.
    + split; [by eexists|]. split; [done|].
      intros k. split; [done|].
      intros (seg & Hseg & Hcs & Hk). by destruct (Hsegs seg Hseg Hcs) as [? _].
  - split; [by eexists|]. split.
    + split; [done|]. intros Heq.
      destruct (Hone (resource path)) as [_ Hsp].
      rewrite Heq in Hsp at 1. by specialize (Hsp (conj eq_refl eq_refl)).
    + intros k. split; [done|]. intros (seg & Hseg & Hcs & _).
      destruct (Htwo "transactions" seg) as [_ Hsp].
      by specialize (Hsp (conj Hseg (conj eq_refl Hcs))).
Qed.

Lemma rstrip_snoc ch s :
  Handler.rstrip ch (s +:+ String.String ch "") = Handler.rstrip ch s.
Proof.
  induction s as [|a s IH]; rewrite ?append_nil, ?append_cons; simpl.
  - by rewrite Ascii.eqb_refl.
  - by rewrite IH.
Qed.

Lemma strip_snoc ch s :
  Handler.strip ch (s +:+ String.String ch "") = Handler.strip ch s.
Proof.
  unfold Handler.strip.
  induction s as [|a s IH]; rewrite ?append_nil, ?append_cons; simpl.
  - by rewrite Ascii.eqb_refl.
  - destruct (Ascii.eqb a ch); [done|].
    by rewrite <- append_cons, rstrip_snoc.
Qed.

Lemma resource_query p q :
  contains "?" p = false → resource (p +:+ "?" +:+ q) = resource p.
Proof.
  intros Hp. unfold resource.
  change ("?" +:+ q) with (String.String "?" q).
  by rewrite before_app, before_free.
Qed.

Lemma resource_leading_slash path : resource ("/" +:+ path) = resource path.
Proof. reflexivity. Qed.

Lemma resource_trailing_slash p :
  contains "?" p = false → resource (p +:+ "/") = resource p.
Proof.
  intros Hp. unfold resource. rewrite !before_free; [|done|].
  - apply strip_snoc.
  - rewrite contains_app, Hp. reflexivity.
Qed.

(** [parse_path] reads the resource only: a query string after the
    first question mark, a slash in front and a slash behind do not
    change the route. *)
Theorem parse_path_reads_the_resource p q :
  contains "?" p = false →
  Handler.parse_path int (p +:+ "?" +:+ q) = Handler.parse_path int p
  ∧ Handler.parse_path int ("/" +:+ p) = Handler.parse_path int p
  ∧ Handler.parse_path int (p +:+ "/") = Handler.parse_path int p.
Proof.
  intros Hp. rewrite !parse_path_unfold.
  by rewrite resource_query, resource_leading_slash, resource_trailing_slash.
Qed.

End Routing.

Lemma parse_path_reads_the_resource_witness :
  Handler.parse_path (λ _, Some 7) ("/transactions/7" +:+ "?" +:+ "page=2")
  = Handler.parse_path (λ _, Some 7) "/transactions/7"
  ∧ Handler.parse_path (λ _, Some 7) ("/" +:+ "/transactions/7")
    = Handler.parse_path (λ _, Some 7) "/transactions/7"
  ∧ Handler.parse_path (λ _, Some 7) ("/transactions/7" +:+ "/")
    = Handler.parse_path (λ _, Some 7) "/transactions/7".
Proof.
  apply (parse_path_reads_the_resource (λ _, Some 7) "/transactions/7" "page=2").
  reflexivity.
Defined.

Section Authentication.
Import Stdlib.Strings.Ascii.

Variable b64decode_utf8 : string → option string.

Lemma startswith_spec p s : Handler.startswith p s = true ↔ ∃ r, s = p +:+ r.
Proof.
  revert s. induction p as [|a p IH]; intros s; simpl.
  - split; [by exists s|done].
  - destruct s as [|b s].
    + split; [done|]. by intros [r Hr].
    + rewrite andb_true_iff, Ascii.eqb_eq, IH. split.
      * intros [-> [r ->]]. by exists r.
      * intros [r Hr]. rewrite append_cons in Hr. simplify_eq. split; [done|by exists r].
Qed.

Lemma split1_nonempty ch s : Handler.split1 ch s ≠ [].
Proof.
  destruct s as [|a s']; simpl; [done|].
  destruct (Ascii.eqb a ch); [done|]. by destruct (Handler.split1 ch s').
Qed.

Lemma split1_two ch s u p :
  Handler.split1 ch s = [u; p] ↔ s = u +:+ String.String ch p ∧ contains ch u = false.
Proof.
  revert u. induction s as [|a s' IH]; intros u; simpl.
  - split; [done|]. intros [Hs _]. by destruct u.
  - pose proof (split1_nonempty ch s') as Hne.
    destruct (Ascii.eqb_spec a ch) as [->|Hach]; simpl.
    + split.
      * by intros [= <- <-].
      * intros (Hs & Hc).
        destruct u as [|b u]; rewrite ?append_nil, ?append_cons in Hs; simpl in *.
        -- by simplify_eq.
        -- simplify_eq. by rewrite Ascii.eqb_refl in Hc.
    + destruct (Handler.split1 ch s') as [|pc pcs]; [done|]. split.
      * intros [= <- ->]. destruct (IH pc) as [(-> & Hc) _]; [done|].
        rewrite append_cons. simpl. split; [done|].
        rewrite Hc. by destruct (Ascii.eqb_spec a ch).
      * intros (Hs & Hc).
        destruct u as [|b u]; rewrite ?append_nil, ?append_cons in Hs; simpl in *.
        -- by simplify_eq.
        -- simplify_eq. apply orb_false_iff in Hc as [_ Hc].
           destruct (IH u) as [_ Hs]. specialize (Hs (conj eq_refl Hc)).
           by simplify_eq.
Qed.

(** Authentication: a request is authenticated exactly when its
    [Authorization] header is [Basic ] followed by an encoding that
    decodes to [admin:password123] or to [user:userpass456]; a missing
    header, another scheme, an encoding that does not decode and
    credentials without colon are refused, none raises. *)
Theorem authenticate_accepts auth_header :
  Handler.authenticate b64decode_utf8 auth_header = true
  ↔ ∃ encoded_credentials,
      auth_header = Some ("Basic " +:+ encoded_credentials)
      ∧ (b64decode_utf8 encoded_credentials = Some "admin:password123"
         ∨ b64decode_utf8 encoded_credentials = Some "user:userpass456").
Proof.
  unfold Handler.authenticate. split.
  - destruct auth_header as [s|]; [|done].
    destruct (String.eqb s ""); cbn [orb]; [done|].
    destruct (Handler.startswith "Basic " s) eqn:Hsw; cbn [negb]; [|done].
    apply startswith_spec in Hsw as [e ->].
    change (Handler.drop 6 ("Basic " +:+ e)) with e.
    destruct (b64decode_utf8 e) as [d|] eqn:Hd; [|done].
    destruct (Handler.split1 ":" d) as [|u [|pw [|? ?]]] eqn:Hsp; try done.
    intros Hv%bool_decide_eq_true. apply split1_two in Hsp as [-> Hc].
    exists e. split; [done|].
    unfold Handler.VALID_CREDENTIALS in Hv.
    apply lookup_insert_Some in Hv as [[<- <-]|[Hne Hv]]; [by left|].
    apply lookup_singleton_Some in Hv as [<- <-]. by right.
  - intros (e & -> & Hd).
    change (String.eqb ("Basic " +:+ e) "") with false.
    change (Handler.startswith "Basic " ("Basic " +:+ e)) with true.
    change (Handler.drop 6 ("Basic " +:+ e)) with e. cbn [orb negb].
    unfold Handler.VALID_CREDENTIALS.
    destruct Hd as [-> | ->].
    + change (Handler.split1 ":" "admin:password123") with ["admin"; "password123"].
      apply bool_decide_eq_true_2, lookup_insert_eq.
    + change (Handler.split1 ":" "user:userpass456") with ["user"; "userpass456"].
      apply bool_decide_eq_true_2.
      rewrite lookup_insert_ne by done. apply lookup_singleton_eq.
Qed.

End Authentication.
